(** * Arc / WeakArc: a shallow embedding of [arc.h]

    The header implements an atomically reference-counted owning handle
    ([Arc<T>]), a weak handle ([WeakArc<T>]) and the free function
    [get_mut].  The embedding below follows the header member by member.

    - The free store is a record of finite maps: one for the
      [ArcControlBlock]s, one for the [WeakArcControlBlock]s, one for the
      control blocks that [std::shared_ptr] / [std::weak_ptr] keep behind the
      scenes, and one each for the [Arc] and [WeakArc] objects themselves
      (their address is what [this != &other] compares).
    - [std::atomic<int>] is a [Z] with the 32-bit wrap-around written out.
    - Every member function is a computation in a state-and-failure monad
      that runs on one thread from start to end.  A lock request on a mutex
      that is held is not granted and the run does not get past it
      ([Stuck]): the caller waits while another thread is the holder; when
      the caller is itself the holder, C++ leaves [lock()] undefined (the
      usual Linux toolchain throws [std::system_error] out of the member,
      and [std::lock] on one mutex twice retries for ever).  Following a
      null or dangling [control_block] pointer is [Wild].
    - Each atomic access, fence, lock operation and deallocation is appended
      to a trace, so that the order of the individual steps of a member
      function, and the memory orders it asks for, can be stated. *)

From stdpp Require Import base gmap list.
From Stdlib Require Import ZArith Lia.

Local Open Scope Z_scope.

(** ** Machine integers *)

Definition INT_MAX : Z := 2147483647.
Definition INT_MIN : Z := -2147483648.

(** Two's-complement wrap-around of [std::atomic<int>] arithmetic. *)
Definition wrap_int (z : Z) : Z := (z + 2147483648) mod 4294967296 - 2147483648.

(** ** Events *)

Inductive memory_order :=
| memory_order_relaxed
| memory_order_release
| memory_order_acquire.

(** The two atomic counters of the header: [ArcControlBlock::ref_count] and
    [WeakArcControlBlock::ref_count], named by the block that holds them. *)
Inductive counter :=
| StrongCount (cb : positive)
| WeakCount (wb : positive).

Inductive event :=
| EvFetchAdd (c : counter) (o : memory_order)
| EvFetchSub (c : counter) (o : memory_order)
| EvLoad (c : counter) (o : memory_order)
| EvFence (o : memory_order)
| EvLock (cb : positive)
| EvUnlock (cb : positive)
| EvLockShared (cb : positive)
| EvUnlockShared (cb : positive)
| EvDeletePayload (p : positive)
| EvFreeBlock (cb : positive)
| EvFreeWeakBlock (wb : positive)
| EvWrite (p : positive) (v : Z).

Global Instance memory_order_eq_dec : EqDecision memory_order.
Proof. solve_decision. Defined.
Global Instance counter_eq_dec : EqDecision counter.
Proof. solve_decision. Defined.
Global Instance event_eq_dec : EqDecision event.
Proof. solve_decision. Defined.

(** ** The store *)

(** [std::shared_mutex]: whether a writer holds it and how many readers do. *)
Record shared_mutex := SharedMutex { writer : bool; readers : nat }.

Definition unlocked : shared_mutex := SharedMutex false 0.

(** The bookkeeping record behind [std::shared_ptr<T>] and
    [std::weak_ptr<T>]: the number of owning and of observing pointers and the
    raw pointer handed to the deleter ([None] is [nullptr]). *)
Record sp_counted := SpCounted {
  use_count : nat;
  weak_count : nat;
  managed : option positive
}.

(** A [std::shared_ptr<T>] / [std::weak_ptr<T>] value is the address of its
    bookkeeping record, or [None] when it is empty. *)
Definition shared_ptr := option positive.
Definition weak_ptr := option positive.

Module ArcControlBlock.
Record t := mk {
  ref_count : Z;
  mutex : shared_mutex;
  data : shared_ptr
}.
End ArcControlBlock.

Module WeakArcControlBlock.
Record t := mk {
  ref_count : Z;
  data : weak_ptr
}.
End WeakArcControlBlock.

Record heap := Heap {
  arc_blocks : gmap positive ArcControlBlock.t;
  weak_blocks : gmap positive WeakArcControlBlock.t;
  counted : gmap positive sp_counted;
  (** the [Arc] objects: address of the object, value of its
      [control_block] member *)
  arcs : gmap positive (option positive);
  (** the [WeakArc] objects, likewise *)
  weaks : gmap positive (option positive);
  trace : list event
}.

Definition empty_heap : heap := Heap ∅ ∅ ∅ ∅ ∅ [].

Definition set_arc_blocks (f : gmap positive ArcControlBlock.t → gmap positive ArcControlBlock.t)
    (σ : heap) : heap :=
  Heap (f (arc_blocks σ)) (weak_blocks σ) (counted σ) (arcs σ) (weaks σ) (trace σ).
Definition set_weak_blocks (f : gmap positive WeakArcControlBlock.t → gmap positive WeakArcControlBlock.t)
    (σ : heap) : heap :=
  Heap (arc_blocks σ) (f (weak_blocks σ)) (counted σ) (arcs σ) (weaks σ) (trace σ).
Definition set_counted (f : gmap positive sp_counted → gmap positive sp_counted)
    (σ : heap) : heap :=
  Heap (arc_blocks σ) (weak_blocks σ) (f (counted σ)) (arcs σ) (weaks σ) (trace σ).
Definition set_arcs (f : gmap positive (option positive) → gmap positive (option positive))
    (σ : heap) : heap :=
  Heap (arc_blocks σ) (weak_blocks σ) (counted σ) (f (arcs σ)) (weaks σ) (trace σ).
Definition set_weaks (f : gmap positive (option positive) → gmap positive (option positive))
    (σ : heap) : heap :=
  Heap (arc_blocks σ) (weak_blocks σ) (counted σ) (arcs σ) (f (weaks σ)) (trace σ).
Definition set_trace (f : list event → list event) (σ : heap) : heap :=
  Heap (arc_blocks σ) (weak_blocks σ) (counted σ) (arcs σ) (weaks σ) (f (trace σ)).

(** The store without its history: what two runs are compared on when only
    their events differ. *)
Definition forget_trace (σ : heap) : heap := set_trace (λ _, []) σ.

(** ** The monad *)

Inductive outcome (A : Type) : Type :=
| Done (a : A) (σ : heap)
| Stuck
| Wild.
Arguments Done {A} a σ.
Arguments Stuck {A}.
Arguments Wild {A}.

Definition M (A : Type) : Type := heap → outcome A.

Definition ret {A} (a : A) : M A := λ σ, Done a σ.
Definition bind {A B} (m : M A) (k : A → M B) : M B :=
  λ σ, match m σ with
       | Done a σ' => k a σ'
       | Stuck => Stuck
       | Wild => Wild
       end.
Definition stuck {A} : M A := λ _, Stuck.
Definition wild {A} : M A := λ _, Wild.

Global Instance M_ret : MRet M := @ret.
Global Instance M_bind : MBind M := λ A B k m, bind m k.

Definition modify (f : heap → heap) : M unit := λ σ, Done tt (f σ).

Definition emit (e : event) : M unit := modify (set_trace (λ t, t ++ [e])).

(** The final store of a run, when it has one. *)
Definition final {A} (o : outcome A) : option heap :=
  match o with Done _ σ => Some σ | _ => None end.

(** The value a run returns, when it returns. *)
Definition value {A} (o : outcome A) : option A :=
  match o with Done a _ => Some a | _ => None end.

(** ** Primitive steps *)

(** Reading the [control_block] member of the [Arc] object at [this]. *)
Definition arc_field (this : positive) : M (option positive) :=
  λ σ, match arcs σ !! this with
       | Some f => Done f σ
       | None => Wild
       end.

Definition weak_field (this : positive) : M (option positive) :=
  λ σ, match weaks σ !! this with
       | Some f => Done f σ
       | None => Wild
       end.

Definition set_arc_field (this : positive) (f : option positive) : M unit :=
  modify (set_arcs (insert this f)).

Definition set_weak_field (this : positive) (f : option positive) : M unit :=
  modify (set_weaks (insert this f)).

(** An address for a temporary object: one no live object of the kind has. *)
Definition fresh_arc : M positive := λ σ, Done (fresh (dom (arcs σ))) σ.
Definition fresh_weak : M positive := λ σ, Done (fresh (dom (weaks σ))) σ.

(** [control_block->]: the pointer must be non-null and the block live. *)
Definition deref (f : option positive) : M (positive * ArcControlBlock.t) :=
  λ σ, match f with
       | Some cb =>
           match arc_blocks σ !! cb with
           | Some blk => Done (cb, blk) σ
           | None => Wild
           end
       | None => Wild
       end.

Definition deref_weak (f : option positive) : M (positive * WeakArcControlBlock.t) :=
  λ σ, match f with
       | Some wb =>
           match weak_blocks σ !! wb with
           | Some blk => Done (wb, blk) σ
           | None => Wild
           end
       | None => Wild
       end.

Definition put_block (cb : positive) (blk : ArcControlBlock.t) : M unit :=
  modify (set_arc_blocks (insert cb blk)).

Definition put_weak_block (wb : positive) (blk : WeakArcControlBlock.t) : M unit :=
  modify (set_weak_blocks (insert wb blk)).

(** [new]: storage at an address no live block of the kind has. *)
Definition alloc_block (blk : ArcControlBlock.t) : M positive :=
  λ σ, let cb := fresh (dom (arc_blocks σ)) in
       Done cb (set_arc_blocks (insert cb blk) σ).

Definition alloc_weak_block (blk : WeakArcControlBlock.t) : M positive :=
  λ σ, let wb := fresh (dom (weak_blocks σ)) in
       Done wb (set_weak_blocks (insert wb blk) σ).

(** *** [std::atomic<int>] on [ArcControlBlock::ref_count] *)

Definition fetch_add (cb : positive) (o : memory_order) : M Z :=
  '(_, blk) ← deref (Some cb);
  put_block cb (ArcControlBlock.mk
                  (wrap_int (ArcControlBlock.ref_count blk + 1))
                  (ArcControlBlock.mutex blk) (ArcControlBlock.data blk));;
  emit (EvFetchAdd (StrongCount cb) o);;
  mret (ArcControlBlock.ref_count blk).

Definition fetch_sub (cb : positive) (o : memory_order) : M Z :=
  '(_, blk) ← deref (Some cb);
  put_block cb (ArcControlBlock.mk
                  (wrap_int (ArcControlBlock.ref_count blk - 1))
                  (ArcControlBlock.mutex blk) (ArcControlBlock.data blk));;
  emit (EvFetchSub (StrongCount cb) o);;
  mret (ArcControlBlock.ref_count blk).

Definition load (cb : positive) (o : memory_order) : M Z :=
  '(_, blk) ← deref (Some cb);
  emit (EvLoad (StrongCount cb) o);;
  mret (ArcControlBlock.ref_count blk).

(** *** [std::atomic<int>] on [WeakArcControlBlock::ref_count] *)

Definition weak_fetch_add (wb : positive) (o : memory_order) : M Z :=
  '(_, blk) ← deref_weak (Some wb);
  put_weak_block wb (WeakArcControlBlock.mk
                       (wrap_int (WeakArcControlBlock.ref_count blk + 1))
                       (WeakArcControlBlock.data blk));;
  emit (EvFetchAdd (WeakCount wb) o);;
  mret (WeakArcControlBlock.ref_count blk).

Definition weak_fetch_sub (wb : positive) (o : memory_order) : M Z :=
  '(_, blk) ← deref_weak (Some wb);
  put_weak_block wb (WeakArcControlBlock.mk
                       (wrap_int (WeakArcControlBlock.ref_count blk - 1))
                       (WeakArcControlBlock.data blk));;
  emit (EvFetchSub (WeakCount wb) o);;
  mret (WeakArcControlBlock.ref_count blk).

(** *** [std::shared_mutex]

    The mutex lives in its control block and is named by the block's address.
    A request that cannot be granted is [Stuck]: the member that made it
    does not get past it.  The store does not record which thread holds a
    mutex, so a request by the holder itself, which C++ leaves undefined, is
    not told apart from a request that has to wait. *)

Definition set_mutex (cb : positive) (m : shared_mutex) : M unit :=
  '(_, blk) ← deref (Some cb);
  put_block cb (ArcControlBlock.mk (ArcControlBlock.ref_count blk) m
                  (ArcControlBlock.data blk)).

Definition lock (cb : positive) : M unit :=
  '(_, blk) ← deref (Some cb);
  let m := ArcControlBlock.mutex blk in
  if writer m then stuck
  else match readers m with
       | O => set_mutex cb (SharedMutex true 0);; emit (EvLock cb)
       | S _ => stuck
       end.

Definition lock_shared (cb : positive) : M unit :=
  '(_, blk) ← deref (Some cb);
  let m := ArcControlBlock.mutex blk in
  if writer m then stuck
  else set_mutex cb (SharedMutex false (S (readers m)));; emit (EvLockShared cb).

(** The guards of the header are destroyed at the end of their block, also
    when the control block they refer to has been freed in between (the last
    line of [release]); the event is recorded either way and a freed block
    has no mutex left to update. *)
Definition unlock (cb : positive) : M unit :=
  modify (set_arc_blocks
            (alter (λ blk, ArcControlBlock.mk (ArcControlBlock.ref_count blk)
                             (SharedMutex false (readers (ArcControlBlock.mutex blk)))
                             (ArcControlBlock.data blk)) cb));;
  emit (EvUnlock cb).

Definition unlock_shared (cb : positive) : M unit :=
  modify (set_arc_blocks
            (alter (λ blk, ArcControlBlock.mk (ArcControlBlock.ref_count blk)
                             (SharedMutex (writer (ArcControlBlock.mutex blk))
                                (Nat.pred (readers (ArcControlBlock.mutex blk))))
                             (ArcControlBlock.data blk)) cb));;
  emit (EvUnlockShared cb).

(** [std::lock(m1, m2)]: both or none.  Handing it the same mutex twice asks
    for a mutex the caller already holds. *)
Definition std_lock (m1 m2 : positive) : M unit :=
  if decide (m1 = m2) then stuck
  else lock m1;; lock m2.

(** *** [std::shared_ptr] and [std::weak_ptr] *)

Definition counted_at (a : positive) : M sp_counted :=
  λ σ, match counted σ !! a with
       | Some c => Done c σ
       | None => Wild
       end.

(** [std::shared_ptr<T>(ptr, deleter)]: a fresh bookkeeping record that owns
    [ptr], also when [ptr] is null. *)
Definition make_shared_ptr (ptr : option positive) : M shared_ptr :=
  λ σ, let s := fresh (dom (counted σ)) in
       Done (Some s) (set_counted (insert s (SpCounted 1 0 ptr)) σ).

(** [shared_ptr::get()] *)
Definition shared_ptr_get (s : shared_ptr) : M (option positive) :=
  match s with
  | None => mret None
  | Some a => c ← counted_at a; mret (managed c)
  end.

(** The deleter the header installs: [[](T *p) { delete p; }].  Deleting the
    null pointer does nothing. *)
Definition deleter (p : option positive) : M unit :=
  match p with
  | Some a => emit (EvDeletePayload a)
  | None => mret tt
  end.

(** Giving up one owning pointer ([reset()] or the destructor): the last one
    runs the deleter; the record goes when no observer is left either. *)
Definition shared_ptr_release (s : shared_ptr) : M unit :=
  match s with
  | None => mret tt
  | Some a =>
      c ← counted_at a;
      match use_count c with
      | 1%nat =>
          deleter (managed c);;
          modify (set_counted
                    (match weak_count c with
                     | O => delete a
                     | S _ => insert a (SpCounted 0 (weak_count c) (managed c))
                     end))
      | u =>
          modify (set_counted
                    (insert a (SpCounted (Nat.pred u) (weak_count c) (managed c))))
      end
  end.

(** [std::weak_ptr<T>(const shared_ptr<T>&)] *)
Definition weak_ptr_from (s : shared_ptr) : M weak_ptr :=
  match s with
  | None => mret None
  | Some a =>
      c ← counted_at a;
      modify (set_counted
                (insert a (SpCounted (use_count c) (S (weak_count c)) (managed c))));;
      mret (Some a)
  end.

(** [weak_ptr::lock()]: a new owning pointer while the object is alive, the
    empty one afterwards. *)
Definition weak_ptr_lock (w : weak_ptr) : M shared_ptr :=
  match w with
  | None => mret None
  | Some a =>
      c ← counted_at a;
      match use_count c with
      | O => mret None
      | S u =>
          modify (set_counted
                    (insert a (SpCounted (S (S u)) (weak_count c) (managed c))));;
          mret (Some a)
      end
  end.

(** Destroying a [std::weak_ptr]. *)
Definition weak_ptr_release (w : weak_ptr) : M unit :=
  match w with
  | None => mret tt
  | Some a =>
      c ← counted_at a;
      modify (set_counted
                (match use_count c, Nat.pred (weak_count c) with
                 | O, O => delete a
                 | _, w' => insert a (SpCounted (use_count c) w' (managed c))
                 end))
  end.

(** ** [class Arc] *)

Module Arc.

(** [new ArcControlBlock(ptr)]: [ref_count(1)], a fresh mutex, and
    [data(ptr, [](T *p) { delete p; })]. *)
Definition new_ArcControlBlock (ptr : option positive) : M positive :=
  s ← make_shared_ptr ptr;
  alloc_block (ArcControlBlock.mk 1 unlocked s).

(** [delete control_block]: the members are destroyed, [data] among them,
    and the storage is returned. *)
Definition delete_ArcControlBlock (cb : positive) : M unit :=
  '(_, blk) ← deref (Some cb);
  shared_ptr_release (ArcControlBlock.data blk);;
  modify (set_arc_blocks (delete cb));;
  emit (EvFreeBlock cb).

(** [explicit Arc(T *ptr)] *)
Definition ctor (this : positive) (ptr : option positive) : M unit :=
  cb ← new_ArcControlBlock ptr;
  set_arc_field this (Some cb).

(** [Arc(const Arc &other)] *)
Definition copy_ctor (this other : positive) : M unit :=
  f ← arc_field other;
  set_arc_field this f;;
  '(cb, _) ← deref f;
  fetch_add cb memory_order_relaxed;;
  mret tt.

(** The body of the outer [if] of [release()], entered by the caller whose
    decrement returned 1: fence, exclusive lock, the second look at the
    count, and the guard going out of scope.  It is a definition of its own
    because this is where other owners' steps can fall between the
    decrement and the second look. *)
Definition release_last (cb : positive) : M unit :=
  emit (EvFence memory_order_acquire);;
  lock cb;;
  c ← load cb memory_order_relaxed;
  (if decide (c = 0) then
     '(_, blk) ← deref (Some cb);
     shared_ptr_release (ArcControlBlock.data blk);;
     put_block cb (ArcControlBlock.mk (ArcControlBlock.ref_count blk)
                     (ArcControlBlock.mutex blk) None);;
     delete_ArcControlBlock cb
   else mret tt);;
  unlock cb.

(** [void release()] *)
Definition release (this : positive) : M unit :=
  f ← arc_field this;
  match f with
  | None => mret tt
  | Some cb =>
      old ← fetch_sub cb memory_order_release;
      if decide (old = 1) then release_last cb else mret tt
  end.

(** [~Arc()] *)
Definition dtor (this : positive) : M unit :=
  release this;;
  modify (set_arcs (delete this)).

(** [auto operator=(const Arc &other)].  The return type is deduced from
    [return *this;] as [Arc], not [Arc&]: the operator hands back a copy of
    [*this], built at [result]. *)
Definition operator_assign (this other result : positive) : M unit :=
  (if decide (this ≠ other) then
     f ← arc_field this;
     '(self_cb, _) ← deref f;
     g ← arc_field other;
     '(other_cb, _) ← deref g;
     std_lock self_cb other_cb;;
     release this;;
     g' ← arc_field other;
     set_arc_field this g';;
     '(cb, _) ← deref g';
     fetch_add cb memory_order_relaxed;;
     unlock other_cb;;
     unlock self_cb
   else mret tt);;
  copy_ctor result this.

(** [auto get() const] *)
Definition get (this : positive) : M (option positive) :=
  f ← arc_field this;
  '(_, blk) ← deref f;
  shared_ptr_get (ArcControlBlock.data blk).

(** [auto mutex()]: the mutex is named by the address of its block. *)
Definition mutex (this : positive) : M positive :=
  f ← arc_field this;
  '(cb, _) ← deref f;
  mret cb.

(** [auto clone() const]: the returned object is built at [result]. *)
Definition clone (this result : positive) : M unit :=
  f ← arc_field this;
  '(cb, _) ← deref f;
  lock_shared cb;;
  copy_ctor result this;;
  unlock_shared cb.

(** The statement [this = other;]: the operator runs and the object it
    returned dies at the end of the full expression. *)
Definition assign_stmt (this other : positive) : M unit :=
  tmp ← fresh_arc;
  operator_assign this other tmp;;
  dtor tmp.

End Arc.


(** [template <typename U> auto get_mut(Arc<U> &arc)] *)
Definition get_mut (arc : positive) : M (option positive) :=
  m ← Arc.mutex arc;
  lock m;;
  p ← Arc.get arc;
  unlock m;;
  mret p.

(** What the caller of [get_mut] does with the pointer it got, as in
    [data->value = 99;]. *)
Definition payload_write (p : positive) (v : Z) : M unit := emit (EvWrite p v).

(** ** [class WeakArc] *)

Module WeakArc.

(** [new WeakArcControlBlock(arc)]: [ref_count(1)],
    [data(arc.control_block->data)]. *)
Definition new_WeakArcControlBlock (arc : positive) : M positive :=
  f ← arc_field arc;
  '(_, blk) ← deref f;
  w ← weak_ptr_from (ArcControlBlock.data blk);
  alloc_weak_block (WeakArcControlBlock.mk 1 w).

(** [delete control_block] *)
Definition delete_WeakArcControlBlock (wb : positive) : M unit :=
  '(_, blk) ← deref_weak (Some wb);
  weak_ptr_release (WeakArcControlBlock.data blk);;
  modify (set_weak_blocks (delete wb));;
  emit (EvFreeWeakBlock wb).

(** [explicit WeakArc(Arc<T> &arc)] *)
Definition ctor (this arc : positive) : M unit :=
  wb ← new_WeakArcControlBlock arc;
  set_weak_field this (Some wb).

(** [WeakArc(const WeakArc &other)] *)
Definition copy_ctor (this other : positive) : M unit :=
  f ← weak_field other;
  set_weak_field this f;;
  '(wb, _) ← deref_weak f;
  weak_fetch_add wb memory_order_relaxed;;
  mret tt.

(** [void release()] *)
Definition release (this : positive) : M unit :=
  f ← weak_field this;
  match f with
  | None => mret tt
  | Some wb =>
      old ← weak_fetch_sub wb memory_order_release;
      if decide (old = 1) then
        emit (EvFence memory_order_acquire);;
        delete_WeakArcControlBlock wb
      else mret tt
  end.

(** [~WeakArc()] *)
Definition dtor (this : positive) : M unit :=
  release this;;
  modify (set_weaks (delete this)).

(** [auto operator=(const WeakArc &other)]; as for [Arc], the deduced
    return type makes it hand back a copy of [*this], built at [result]. *)
Definition operator_assign (this other result : positive) : M unit :=
  (if decide (this ≠ other) then
     g ← weak_field other;
     set_weak_field this g;;
     '(wb, _) ← deref_weak g;
     weak_fetch_add wb memory_order_relaxed;;
     mret tt
   else mret tt);;
  copy_ctor result this.

(** [auto upgrade() const]: the returned [Arc] is built at [result]; the
    local [shared_ptr] dies when the function returns. *)
Definition upgrade (this result : positive) : M unit :=
  f ← weak_field this;
  '(_, blk) ← deref_weak f;
  s ← weak_ptr_lock (WeakArcControlBlock.data blk);
  p ← shared_ptr_get s;
  match p with
  | Some a => Arc.ctor result (Some a)
  | None => Arc.ctor result None
  end;;
  shared_ptr_release s.

(** The statement [this = other;]. *)
Definition assign_stmt (this other : positive) : M unit :=
  tmp ← fresh_weak;
  operator_assign this other tmp;;
  dtor tmp.

End WeakArc.

(** ** Observations on a store *)

(** The events of the deleter on the pointer [p]. *)
Definition deleter_events (p : option positive) : list event :=
  match p with
  | Some a => [EvDeletePayload a]
  | None => []
  end.

(** How often the deleter has run on the payload at [p]. *)
Definition destroyed (p : positive) (σ : heap) : nat :=
  length (filter (λ e, e = EvDeletePayload p) (trace σ)).

(** The [strong_count] of the block at [cb], when the block is live. *)
Definition strong_count (cb : positive) (σ : heap) : option Z :=
  ArcControlBlock.ref_count <$> arc_blocks σ !! cb.

(** The [weak_count] of the block at [wb], when the block is live. *)
Definition weak_refs (wb : positive) (σ : heap) : option Z :=
  WeakArcControlBlock.ref_count <$> weak_blocks σ !! wb.

(** The program of [main.cpp] up to the end of its first block, with the
    payload at address [p]. *)
Definition main_prefix (arc arc2 p : positive) : M unit :=
  Arc.ctor arc (Some p);;
  Arc.clone arc arc2;;
  data ← get_mut arc2;
  match data with
  | Some a => payload_write a 99
  | None => wild
  end.

(** ** Operations as data *)

(** What a caller can do with a [WeakArc]. *)
Inductive weak_op :=
| WeakConstruct (this arc : positive)
| WeakCopy (this other : positive)
| WeakAssign (this other : positive)
| WeakDestroy (this : positive)
| WeakUpgrade (this result : positive).

Definition run_weak_op (o : weak_op) : M unit :=
  match o with
  | WeakConstruct this arc => WeakArc.ctor this arc
  | WeakCopy this other => WeakArc.copy_ctor this other
  | WeakAssign this other => WeakArc.assign_stmt this other
  | WeakDestroy this => WeakArc.dtor this
  | WeakUpgrade this result => WeakArc.upgrade this result
  end.

(** A computation keeps the strong control blocks when every
    [ArcControlBlock] that is live before it is live, and the same,
    after it. *)
Definition keeps_blocks {A} (m : M A) : Prop :=
  ∀ σ a σ', m σ = Done a σ' →
    ∀ cb blk, arc_blocks σ !! cb = Some blk → arc_blocks σ' !! cb = Some blk.





(** Copying and destroying [Arc]s, as a program. *)
Inductive owner_op :=
| Copy (result source : positive)
| Destroy (this : positive).

Definition run_owner_op (o : owner_op) : M unit :=
  match o with
  | Copy result source => Arc.copy_ctor result source
  | Destroy this => Arc.dtor this
  end.

Fixpoint run_owner_ops (l : list owner_op) : M unit :=
  match l with
  | [] => mret tt
  | o :: l' => run_owner_op o;; run_owner_ops l'
  end.

(** The [Arc] objects that exist after an operation, given those before. *)
Definition step_live (live : gset positive) (o : owner_op) : gset positive :=
  match o with
  | Copy result _ => {[result]} ∪ live
  | Destroy this => live ∖ {[this]}
  end.

Definition live_after (live : gset positive) (l : list owner_op) : gset positive :=
  foldl step_live live l.

(** A program only copies from and destroys objects that exist, and builds
    copies where no object is. *)
Fixpoint well_scoped (live : gset positive) (l : list owner_op) : Prop :=
  match l with
  | [] => True
  | o :: l' =>
      match o with
      | Copy result source => source ∈ live ∧ result ∉ live
      | Destroy this => this ∈ live
      end ∧ well_scoped (step_live live o) l'
  end.

(** The [Arc] objects of the store are exactly [live], all on the control
    block [cb], which counts them and owns the payload [p]. *)
Definition family (cb s p : positive) (w : nat) (live : gset positive) (σ : heap) : Prop :=
  arc_blocks σ !! cb
    = Some (ArcControlBlock.mk (Z.of_nat (size live)) unlocked (Some s)) ∧
  counted σ !! s = Some (SpCounted 1 w (Some p)) ∧
  arcs σ = gset_to_gmap (Some cb) live.

(** ** Sample stores *)

(** One [Arc] at address 1 that is the only owner of the payload at
    address 10, and the same with a second owner at address 2. *)
Definition one_owner : heap :=
  Heap {[1%positive := ArcControlBlock.mk 1 unlocked (Some 1%positive)]} ∅
       {[1%positive := SpCounted 1 0 (Some 10%positive)]}
       {[1%positive := Some 1%positive]} ∅ [].

Definition two_owners : heap :=
  Heap {[1%positive := ArcControlBlock.mk 2 unlocked (Some 1%positive)]} ∅
       {[1%positive := SpCounted 1 0 (Some 10%positive)]}
       {[1%positive := Some 1%positive; 2%positive := Some 1%positive]} ∅ [].

(** A store with two [WeakArc]s, at addresses 5 and 6, each with a control
    block of its own, both made from the [Arc] of [one_owner]. *)
Definition two_weaks : heap :=
  Heap {[1%positive := ArcControlBlock.mk 1 unlocked (Some 1%positive)]}
       {[1%positive := WeakArcControlBlock.mk 1 (Some 1%positive);
         2%positive := WeakArcControlBlock.mk 1 (Some 1%positive)]}
       {[1%positive := SpCounted 1 2 (Some 10%positive)]}
       {[1%positive := Some 1%positive]}
       {[5%positive := Some 1%positive; 6%positive := Some 2%positive]} [].

(** The store of [one_owner] with a [WeakArc] at address 5 made from its
    [Arc]. *)
Definition observed_owner : heap :=
  Heap {[1%positive := ArcControlBlock.mk 1 unlocked (Some 1%positive)]}
       {[1%positive := WeakArcControlBlock.mk 1 (Some 1%positive)]}
       {[1%positive := SpCounted 1 1 (Some 10%positive)]}
       {[1%positive := Some 1%positive]}
       {[5%positive := Some 1%positive]} [].

(** The store after [Arc<T>(nullptr)] at address 1. *)
Definition null_arc : heap :=
  Heap {[1%positive := ArcControlBlock.mk 1 unlocked (Some 1%positive)]} ∅
       {[1%positive := SpCounted 1 0 None]}
       {[1%positive := Some 1%positive]} ∅ [].


(** Two [WeakArc]s, at 5 and 6, on one control block with count 2. *)
Definition shared_weaks : heap :=
  Heap {[1%positive := ArcControlBlock.mk 1 unlocked (Some 1%positive)]}
       {[1%positive := WeakArcControlBlock.mk 2 (Some 1%positive)]}
       {[1%positive := SpCounted 1 1 (Some 10%positive)]}
       {[1%positive := Some 1%positive]}
       {[5%positive := Some 1%positive; 6%positive := Some 1%positive]} [].

(** The store of [two_owners] with the mutex of the block held by a
    writer, as after [arc.mutex()->lock()]. *)
Definition locked_owners : heap :=
  Heap {[1%positive := ArcControlBlock.mk 2 (SharedMutex true 0) (Some 1%positive)]} ∅
       {[1%positive := SpCounted 1 0 (Some 10%positive)]}
       {[1%positive := Some 1%positive; 2%positive := Some 1%positive]} ∅ [].

(** ** Sample programs *)

(** Two callers of [get_mut] and a [clone], as they may come from two
    threads: the second caller and the clone arrive after the first caller
    got its pointer and before it writes through it. *)
Definition overlapping_views (arc arc2 arc3 p : positive) : M unit :=
  Arc.ctor arc (Some p);;
  Arc.clone arc arc2;;
  first ← get_mut arc2;
  second ← get_mut arc;
  Arc.clone arc arc3;;
  match first, second with
  | Some a, Some b => payload_write a 99;; payload_write b 7
  | _, _ => wild
  end.

(** What is left of the bookkeeping record at [s] when one observer goes. *)
Definition drop_observer (s : positive) (c : sp_counted)
    (m : gmap positive sp_counted) : gmap positive sp_counted :=
  match use_count c, Nat.pred (weak_count c) with
  | O, O => delete s m
  | _, w' => <[s := SpCounted (use_count c) w' (managed c)]> m
  end.

(** ** Callers *)

(** A [std::shared_lock<std::shared_mutex>] built on the mutex that
    [arc.mutex()] points at, the way [main.cpp] takes the reader side before
    it looks at the payload.  The guard gives the lock back with
    [unlock_shared] at the end of its block. *)
Definition shared_lock (arc : positive) : M positive :=
  m ← Arc.mutex arc;
  lock_shared m;;
  mret m.

(** The body of the two threads of [main.cpp]: a copy of [arc], the shared
    lock, the read through [get()], and the two locals going out of scope in
    reverse order.  The pointer that is read through is returned. *)
Definition reader_thread (arc localArc : positive) : M (option positive) :=
  Arc.copy_ctor localArc arc;;
  m ← shared_lock localArc;
  data ← Arc.get localArc;
  match data with
  | Some _ => mret tt
  | None => wild
  end;;
  unlock_shared m;;
  Arc.dtor localArc;;
  mret data.

(** [main.cpp] from [auto weakArc = WeakArc<MyData>(arc);] to the end of
    [main], where the four locals are destroyed in reverse order of
    declaration. *)
Definition main_tail (arc arc2 weakArc upgradedArc : positive) : M unit :=
  WeakArc.ctor weakArc arc;;
  WeakArc.upgrade weakArc upgradedArc;;
  p ← Arc.get upgradedArc;
  match p with
  | Some _ =>
      m ← shared_lock upgradedArc;
      q ← Arc.get upgradedArc;
      match q with
      | Some _ => mret tt
      | None => wild
      end;;
      unlock_shared m
  | None => mret tt
  end;;
  Arc.dtor upgradedArc;;
  WeakArc.dtor weakArc;;
  Arc.dtor arc2;;
  Arc.dtor arc.

(** * Properties *)

(** ** Running the definitions on a symbolic store *)

Ltac unfold_ops :=
  unfold main_prefix, get_mut, payload_write,
    Arc.assign_stmt, WeakArc.assign_stmt;
  unfold Arc.operator_assign, Arc.clone, Arc.dtor, Arc.ctor,
    WeakArc.operator_assign, WeakArc.upgrade, WeakArc.dtor, WeakArc.ctor;
  unfold Arc.ctor, Arc.release, Arc.copy_ctor, Arc.get, Arc.mutex,
    WeakArc.release, WeakArc.copy_ctor;
  unfold Arc.release_last, Arc.new_ArcControlBlock,
    WeakArc.new_WeakArcControlBlock, WeakArc.delete_WeakArcControlBlock;
  unfold Arc.delete_ArcControlBlock, std_lock;
  unfold fetch_add, fetch_sub, load, weak_fetch_add, weak_fetch_sub, lock, lock_shared,
    unlock, unlock_shared;
  unfold set_mutex, put_block, put_weak_block,
    alloc_block, alloc_weak_block, fresh_arc, fresh_weak,
    make_shared_ptr, shared_ptr_get, shared_ptr_release, weak_ptr_from, weak_ptr_lock,
    weak_ptr_release;
  unfold deleter, counted_at,
    arc_field, weak_field, set_arc_field, set_weak_field, deref, deref_weak,
    emit, modify, stuck, wild,
    mbind, M_bind, bind, mret, M_ret, ret.

Ltac project :=
  unfold set_arc_blocks, set_weak_blocks, set_counted, set_arcs, set_weaks, set_trace;
  cbn [arc_blocks weak_blocks counted arcs weaks trace
       ArcControlBlock.ref_count ArcControlBlock.mutex ArcControlBlock.data
       WeakArcControlBlock.ref_count WeakArcControlBlock.data
       use_count weak_count managed writer readers unlocked fst snd final value].

Ltac exec :=
  repeat first
    [ progress project
    | rewrite lookup_insert_eq
    | rewrite lookup_delete_eq
    | progress change (wrap_int (1 - 1)) with 0
    | progress change (wrap_int (1 + 1)) with 2
    | match goal with
      | H : wrap_int ?x = _ |- context [wrap_int ?x] => rewrite H
      end
    | match goal with
      | H : ?m !! ?k = _ |- context [?m !! ?k] => rewrite H
      | H : ?a ≠ ?b |- context [<[?a := _]> _ !! ?b] => rewrite (lookup_insert_ne _ a b) by exact H
      | H : ?b ≠ ?a |- context [<[?a := _]> _ !! ?b] =>
          rewrite (lookup_insert_ne _ a b) by (intros ?; apply H; congruence)
      end
    | match goal with
      | |- context [decide (?a = ?b)] => destruct (decide (a = b)); try congruence; try lia
      | |- context [decide (?a ≠ ?b)] => destruct (decide (a ≠ b)); try congruence; try lia
      end ].

Ltac count_events :=
  cbn [filter list_filter];
  repeat first [ rewrite decide_True by reflexivity
               | rewrite decide_False by discriminate ];
  cbn [length]; lia.

(** ** Arithmetic of the counters *)

Lemma wrap_int_id (z : Z) : INT_MIN ≤ z ≤ INT_MAX → wrap_int z = z.
Proof.
  unfold INT_MIN, INT_MAX, wrap_int. intros H.
  rewrite Z.mod_small by lia. lia.
Qed.

Lemma wrap_int_succ_pred (z : Z) :
  INT_MIN ≤ z ≤ INT_MAX → wrap_int (wrap_int (z + 1) - 1) = z.
Proof.
  intros H. unfold INT_MIN, INT_MAX in H.
  destruct (decide (z = 2147483647)) as [->|Hne]; [reflexivity|].
  rewrite (wrap_int_id (z + 1)) by (unfold INT_MIN, INT_MAX; lia).
  replace (z + 1 - 1) with z by lia.
  apply wrap_int_id. unfold INT_MIN, INT_MAX. lia.
Qed.

Lemma wrap_int_succ_ne_1 (z : Z) : 1 ≤ z ≤ INT_MAX → wrap_int (z + 1) ≠ 1.
Proof.
  intros H. unfold INT_MAX in H.
  destruct (decide (z = 2147483647)) as [->|Hne]; [vm_compute; discriminate|].
  rewrite wrap_int_id by (unfold INT_MIN, INT_MAX; lia). lia.
Qed.

(** ** Finite-map facts used below *)

Lemma alter_absent {V} (f : V → V) (k : positive) (m : gmap positive V) :
  m !! k = None → alter f k m = m.
Proof.
  intros H. apply map_eq. intros i. rewrite lookup_alter.
  destruct (decide (k = i)) as [->|]; [by rewrite H|done].
Qed.

Lemma alter_insert_same {V} (f : V → V) (k : positive) (v : V) (m : gmap positive V) :
  alter f k (<[k := v]> m) = <[k := f v]> m.
Proof.
  apply map_eq. intros i. rewrite lookup_alter.
  destruct (decide (k = i)) as [->|].
  - by rewrite !lookup_insert_eq.
  - by rewrite !lookup_insert_ne.
Qed.

Lemma fresh_lookup {V} (m : gmap positive V) : m !! fresh (dom m) = None.
Proof. apply not_elem_of_dom. apply is_fresh. Qed.

Lemma fresh_ne {V} (m : gmap positive V) (k : positive) (v : V) :
  m !! k = Some v → fresh (dom m) ≠ k.
Proof. intros H E. rewrite <- E, fresh_lookup in H. discriminate. Qed.

(** ** [Arc::release] step by step *)

(** The guard [control_block &&]: with a null pointer nothing is touched.
    (No constructor of the header leaves the pointer null.) *)
Lemma release_null (this : positive) (σ : heap) :
  arcs σ !! this = Some None → Arc.release this σ = Done tt σ.
Proof. intros H. unfold_ops. exec. reflexivity. Qed.

Section release.
Variables (this cb : positive) (blk : ArcControlBlock.t) (σ : heap).
Hypothesis Hthis : arcs σ !! this = Some (Some cb).
Hypothesis Hblk : arc_blocks σ !! cb = Some blk.

(** A decrement that returns something other than 1 is all that happens. *)
Lemma release_not_last :
  ArcControlBlock.ref_count blk ≠ 1 →
  Arc.release this σ =
    Done tt (Heap (<[cb := ArcControlBlock.mk
                            (wrap_int (ArcControlBlock.ref_count blk - 1))
                            (ArcControlBlock.mutex blk) (ArcControlBlock.data blk)]>
                     (arc_blocks σ))
               (weak_blocks σ) (counted σ) (arcs σ) (weaks σ)
               (trace σ ++ [EvFetchSub (StrongCount cb) memory_order_release])).
Proof. intros Hc. unfold_ops. exec; done. Qed.

(** The decrement that returns 1 goes on to the fence, the lock, the second
    look, the deleter and the deallocation, in this order. *)
Lemma release_last_owner_any (s : positive) (c : sp_counted) :
  ArcControlBlock.ref_count blk = 1 →
  ArcControlBlock.mutex blk = unlocked →
  ArcControlBlock.data blk = Some s →
  counted σ !! s = Some c →
  use_count c = 1%nat →
  Arc.release this σ =
    Done tt (Heap (delete cb (arc_blocks σ))
               (weak_blocks σ)
               (match weak_count c with
                | O => delete s (counted σ)
                | S _ => <[s := SpCounted 0 (weak_count c) (managed c)]> (counted σ)
                end)
               (arcs σ) (weaks σ)
               (trace σ ++ [EvFetchSub (StrongCount cb) memory_order_release;
                            EvFence memory_order_acquire;
                            EvLock cb;
                            EvLoad (StrongCount cb) memory_order_relaxed]
                        ++ deleter_events (managed c)
                        ++ [EvFreeBlock cb; EvUnlock cb])).
Proof.
  destruct blk as [rc mx dt], c as [u w mg]. cbn. intros -> -> -> Hs ->.
  unfold_ops. exec.
  destruct mg as [p|]; exec; cbn [deleter_events]; do 2 f_equal.
  - rewrite alter_absent by apply lookup_delete_eq.
    rewrite !delete_insert_eq. reflexivity.
  - destruct w; reflexivity.
  - rewrite <- !app_assoc. reflexivity.
  - rewrite alter_absent by apply lookup_delete_eq.
    rewrite !delete_insert_eq. reflexivity.
  - destruct w; reflexivity.
  - rewrite <- !app_assoc. reflexivity.
Qed.

Lemma release_last_owner (s p : positive) (c : sp_counted) :
  ArcControlBlock.ref_count blk = 1 →
  ArcControlBlock.mutex blk = unlocked →
  ArcControlBlock.data blk = Some s →
  counted σ !! s = Some c →
  use_count c = 1%nat →
  managed c = Some p →
  Arc.release this σ =
    Done tt (Heap (delete cb (arc_blocks σ))
               (weak_blocks σ)
               (match weak_count c with
                | O => delete s (counted σ)
                | S _ => <[s := SpCounted 0 (weak_count c) (Some p)]> (counted σ)
                end)
               (arcs σ) (weaks σ)
               (trace σ ++ [EvFetchSub (StrongCount cb) memory_order_release;
                            EvFence memory_order_acquire;
                            EvLock cb;
                            EvLoad (StrongCount cb) memory_order_relaxed;
                            EvDeletePayload p;
                            EvFreeBlock cb;
                            EvUnlock cb])).
Proof.
  intros Hrc Hmx Hdt Hs Hu Hp.
  rewrite (release_last_owner_any s c) by done. rewrite Hp. reflexivity.
Qed.

End release.

(** *** The lock in [release]

    The steps of [release()] up to the construction of its guard, and what
    runs while the guard exists. *)


Section release_lock.
Variables (this cb : positive) (blk : ArcControlBlock.t) (σ : heap).
Hypothesis Hthis : arcs σ !! this = Some (Some cb).
Hypothesis Hblk : arc_blocks σ !! cb = Some blk.



End release_lock.





(** ** Copying and cloning *)

Lemma copy_ctor_run (this other cb : positive) (blk : ArcControlBlock.t) (σ : heap) :
  arcs σ !! other = Some (Some cb) →
  arc_blocks σ !! cb = Some blk →
  Arc.copy_ctor this other σ =
    Done tt (Heap (<[cb := ArcControlBlock.mk
                            (wrap_int (ArcControlBlock.ref_count blk + 1))
                            (ArcControlBlock.mutex blk) (ArcControlBlock.data blk)]>
                     (arc_blocks σ))
               (weak_blocks σ) (counted σ)
               (<[this := Some cb]> (arcs σ)) (weaks σ)
               (trace σ ++ [EvFetchAdd (StrongCount cb) memory_order_relaxed])).
Proof. intros Ho Hb. unfold_ops. exec; done. Qed.

Lemma clone_run (this result cb : positive) (blk : ArcControlBlock.t) (σ : heap) :
  arcs σ !! this = Some (Some cb) →
  arc_blocks σ !! cb = Some blk →
  writer (ArcControlBlock.mutex blk) = false →
  Arc.clone this result σ =
    Done tt (Heap (<[cb := ArcControlBlock.mk
                            (wrap_int (ArcControlBlock.ref_count blk + 1))
                            (ArcControlBlock.mutex blk) (ArcControlBlock.data blk)]>
                     (arc_blocks σ))
               (weak_blocks σ) (counted σ)
               (<[result := Some cb]> (arcs σ)) (weaks σ)
               (trace σ ++ [EvLockShared cb;
                            EvFetchAdd (StrongCount cb) memory_order_relaxed;
                            EvUnlockShared cb])).
Proof.
  destruct blk as [rc [wr rd] dt]. cbn. intros Ht Hb ->.
  unfold_ops. exec. do 2 f_equal.
  - by rewrite alter_insert_same, !insert_insert_eq.
  - by rewrite <- !app_assoc.
Qed.



(** ** Assignment of an [Arc] to itself *)

(** C5.  [a = a;] skips the body of [operator=], so no lock is requested;
    the only events are the increment and the decrement of the copy that the
    operator returns by value, and the store after the statement is the store
    before it: same [control_block] pointer, same count, same payload. *)
Theorem self_assignment_noop (this cb : positive) (blk : ArcControlBlock.t) (σ : heap) :
  arcs σ !! this = Some (Some cb) →
  arc_blocks σ !! cb = Some blk →
  1 ≤ ArcControlBlock.ref_count blk ≤ INT_MAX →
  ∃ σ',
    Arc.assign_stmt this this σ = Done tt σ' ∧
    forget_trace σ' = forget_trace σ ∧
    arcs σ' !! this = Some (Some cb) ∧
    strong_count cb σ' = Some (ArcControlBlock.ref_count blk) ∧
    value (Arc.get this σ') = value (Arc.get this σ) ∧
    trace σ' = trace σ ++ [EvFetchAdd (StrongCount cb) memory_order_relaxed;
                           EvFetchSub (StrongCount cb) memory_order_release].
Proof.
  intros Ht Hb Hrc.
  pose proof (wrap_int_succ_ne_1 _ Hrc) as Hne.
  assert (Hback : wrap_int (wrap_int (ArcControlBlock.ref_count blk + 1) - 1)
                  = ArcControlBlock.ref_count blk).
  { apply wrap_int_succ_pred. unfold INT_MIN, INT_MAX in *. lia. }
  assert (Hrun : Arc.assign_stmt this this σ =
                 Done tt (Heap (arc_blocks σ) (weak_blocks σ) (counted σ) (arcs σ) (weaks σ)
                            (trace σ ++ [EvFetchAdd (StrongCount cb) memory_order_relaxed;
                                         EvFetchSub (StrongCount cb) memory_order_release]))).
  { unfold_ops. exec. do 2 f_equal.
    - rewrite insert_insert_eq. destruct blk. by apply insert_id.
    - rewrite delete_insert_eq. apply delete_id, fresh_lookup.
    - by rewrite <- app_assoc. }
  eexists. split; [exact Hrun|]. split; [reflexivity|].
  cbn [arcs trace]. split; [done|]. split; [|split; [|done]].
  - unfold strong_count. cbn [arc_blocks]. by rewrite Hb.
  - unfold_ops. exec. destruct (ArcControlBlock.data blk) as [a|]; cbn; [destruct (counted σ !! a)|]; done.
Qed.

Lemma self_assignment_noop_witness :
  ∃ σ', Arc.assign_stmt 1 1 two_owners = Done tt σ' ∧
        forget_trace σ' = forget_trace two_owners.
Proof.
  destruct (self_assignment_noop 1 1 (ArcControlBlock.mk 2 unlocked (Some 1%positive))
              two_owners) as (σ' & Hrun & Hsame & _);
    [reflexivity | reflexivity | unfold INT_MAX; cbn; lia |].
  exists σ'. split; [exact Hrun|exact Hsame].
Defined.

(** ** [WeakArc]: assignment *)

Lemma weak_copy_ctor_run (this other wb : positive) (blk : WeakArcControlBlock.t)
    (σ : heap) :
  weaks σ !! other = Some (Some wb) →
  weak_blocks σ !! wb = Some blk →
  WeakArc.copy_ctor this other σ =
    Done tt (Heap (arc_blocks σ)
               (<[wb := WeakArcControlBlock.mk
                          (wrap_int (WeakArcControlBlock.ref_count blk + 1))
                          (WeakArcControlBlock.data blk)]> (weak_blocks σ))
               (counted σ) (arcs σ)
               (<[this := Some wb]> (weaks σ))
               (trace σ ++ [EvFetchAdd (WeakCount wb) memory_order_relaxed])).
Proof. intros Ho Hb. unfold_ops. exec; done. Qed.

(** C10.  [w = w;] on a [WeakArc] skips the body of [operator=]; the copy the
    operator returns by value raises and lowers the count once, and the store
    after the statement is the store before it. *)
Theorem weak_self_assignment_noop (this wb : positive) (blk : WeakArcControlBlock.t)
    (σ : heap) :
  weaks σ !! this = Some (Some wb) →
  weak_blocks σ !! wb = Some blk →
  1 ≤ WeakArcControlBlock.ref_count blk ≤ INT_MAX →
  ∃ σ',
    WeakArc.assign_stmt this this σ = Done tt σ' ∧
    forget_trace σ' = forget_trace σ ∧
    weaks σ' !! this = Some (Some wb) ∧
    weak_refs wb σ' = Some (WeakArcControlBlock.ref_count blk) ∧
    trace σ' = trace σ ++ [EvFetchAdd (WeakCount wb) memory_order_relaxed;
                           EvFetchSub (WeakCount wb) memory_order_release].
Proof.
  intros Ht Hb Hrc.
  pose proof (wrap_int_succ_ne_1 _ Hrc) as Hne.
  assert (Hback : wrap_int (wrap_int (WeakArcControlBlock.ref_count blk + 1) - 1)
                  = WeakArcControlBlock.ref_count blk).
  { apply wrap_int_succ_pred. unfold INT_MIN, INT_MAX in *. lia. }
  assert (Hrun : WeakArc.assign_stmt this this σ =
                 Done tt (Heap (arc_blocks σ) (weak_blocks σ) (counted σ) (arcs σ) (weaks σ)
                            (trace σ ++ [EvFetchAdd (WeakCount wb) memory_order_relaxed;
                                         EvFetchSub (WeakCount wb) memory_order_release]))).
  { unfold_ops. exec. do 2 f_equal.
    - rewrite insert_insert_eq. destruct blk. by apply insert_id.
    - rewrite delete_insert_eq. apply delete_id, fresh_lookup.
    - by rewrite <- app_assoc. }
  eexists. split; [exact Hrun|]. split; [reflexivity|].
  cbn [weaks trace]. split; [done|]. split; [|done].
  unfold weak_refs. cbn [weak_blocks]. by rewrite Hb.
Qed.

Lemma weak_self_assignment_noop_witness :
  ∃ σ', WeakArc.assign_stmt 5 5 two_weaks = Done tt σ' ∧
        forget_trace σ' = forget_trace two_weaks.
Proof.
  destruct (weak_self_assignment_noop 5 1 (WeakArcControlBlock.mk 1 (Some 1%positive))
              two_weaks) as (σ' & Hrun & Hsame & _);
    [reflexivity | reflexivity | unfold INT_MAX; cbn; lia |].
  exists σ'. split; [exact Hrun|exact Hsame].
Defined.

(** C6.  What [operator=] of [WeakArc] does between two different objects
    with different control blocks: it adopts the incoming block and raises
    its count by one, and it leaves the block it held before exactly as it
    was, count included: no decrement is issued on it and it is not freed. *)
Theorem weak_assign_keeps_old_count (this other wb wo : positive)
    (blk blko : WeakArcControlBlock.t) (σ : heap) :
  this ≠ other →
  wb ≠ wo →
  weaks σ !! this = Some (Some wb) →
  weaks σ !! other = Some (Some wo) →
  weak_blocks σ !! wb = Some blk →
  weak_blocks σ !! wo = Some blko →
  1 ≤ WeakArcControlBlock.ref_count blko < INT_MAX - 1 →
  ∃ σ',
    WeakArc.assign_stmt this other σ = Done tt σ' ∧
    weaks σ' !! this = Some (Some wo) ∧
    weak_refs wo σ' = Some (WeakArcControlBlock.ref_count blko + 1) ∧
    weak_blocks σ' !! wb = Some blk ∧
    weak_refs wb σ' = Some (WeakArcControlBlock.ref_count blk) ∧
    trace σ' = trace σ ++ [EvFetchAdd (WeakCount wo) memory_order_relaxed;
                           EvFetchAdd (WeakCount wo) memory_order_relaxed;
                           EvFetchSub (WeakCount wo) memory_order_release].
Proof.
  intros Hne Hbne Ht Ho Hb Hbo Hrc.
  assert (H1 : wrap_int (WeakArcControlBlock.ref_count blko + 1)
               = WeakArcControlBlock.ref_count blko + 1)
    by (apply wrap_int_id; unfold INT_MIN, INT_MAX in *; lia).
  assert (H2 : wrap_int (WeakArcControlBlock.ref_count blko + 1 + 1)
               = WeakArcControlBlock.ref_count blko + 1 + 1)
    by (apply wrap_int_id; unfold INT_MIN, INT_MAX in *; lia).
  assert (H3 : wrap_int (WeakArcControlBlock.ref_count blko + 1 + 1 - 1)
               = WeakArcControlBlock.ref_count blko + 1)
    by (rewrite wrap_int_id; unfold INT_MIN, INT_MAX in *; lia).
  assert (Hrun : WeakArc.assign_stmt this other σ =
                 Done tt (Heap (arc_blocks σ)
                            (<[wo := WeakArcControlBlock.mk
                                       (WeakArcControlBlock.ref_count blko + 1)
                                       (WeakArcControlBlock.data blko)]> (weak_blocks σ))
                            (counted σ) (arcs σ)
                            (<[this := Some wo]> (weaks σ))
                            (trace σ ++ [EvFetchAdd (WeakCount wo) memory_order_relaxed;
                                         EvFetchAdd (WeakCount wo) memory_order_relaxed;
                                         EvFetchSub (WeakCount wo) memory_order_release]))).
  { unfold_ops. exec. do 2 f_equal.
    - by rewrite !insert_insert_eq.
    - rewrite delete_insert_eq. apply delete_id.
      rewrite lookup_insert_ne; [apply fresh_lookup|].
      intros E. pose proof (fresh_lookup (weaks σ)) as Hf. rewrite <- E, Ht in Hf. done.
    - by rewrite <- !app_assoc. }
  eexists. split; [exact Hrun|]. cbn [weaks weak_blocks trace].
  split; [apply lookup_insert_eq|]. unfold weak_refs. cbn [weak_blocks].
  rewrite lookup_insert_eq, lookup_insert_ne, Hb by done. done.
Qed.

Lemma weak_assign_keeps_old_count_witness :
  ∃ σ', WeakArc.assign_stmt 5 6 two_weaks = Done tt σ' ∧
        weak_refs 1 σ' = Some 1 ∧ weak_refs 2 σ' = Some 2.
Proof.
  destruct (weak_assign_keeps_old_count 5 6 1 2
              (WeakArcControlBlock.mk 1 (Some 1%positive))
              (WeakArcControlBlock.mk 1 (Some 1%positive)) two_weaks)
    as (σ' & Hrun & _ & Hnew & _ & Hold & _);
    [discriminate | discriminate | reflexivity | reflexivity | reflexivity | reflexivity
    | unfold INT_MAX; cbn; lia |].
  exists σ'. split; [exact Hrun|]. split; [exact Hold|exact Hnew].
Defined.

(** ** What the [WeakArc] members leave alone *)

Section keeps.
Context {A B : Type}.

Lemma keeps_ret (a : A) : keeps_blocks (mret a : M A).
Proof. intros σ a' σ' [= _ <-]. done. Qed.

Lemma keeps_bind (m : M A) (k : A → M B) :
  keeps_blocks m → (∀ a, keeps_blocks (k a)) → keeps_blocks (m ≫= k).
Proof.
  intros Hm Hk σ b σ' Hrun cb blk Hcb.
  unfold mbind, M_bind, bind in Hrun.
  destruct (m σ) as [a σ1| |] eqn:E; try discriminate.
  eapply Hk; [exact Hrun|]. eapply Hm; [exact E|exact Hcb].
Qed.

Lemma keeps_stuck : keeps_blocks (stuck : M A).
Proof. intros σ a σ' [=]. Qed.

Lemma keeps_wild : keeps_blocks (wild : M A).
Proof. intros σ a σ' [=]. Qed.
End keeps.

Lemma keeps_modify (f : heap → heap) :
  (∀ σ, arc_blocks (f σ) = arc_blocks σ) → keeps_blocks (modify f).
Proof. intros Hf σ a σ' [= _ <-] cb blk. by rewrite Hf. Qed.

Lemma keeps_emit (e : event) : keeps_blocks (emit e).
Proof. by apply keeps_modify. Qed.

Lemma keeps_weak_field (this : positive) : keeps_blocks (weak_field this).
Proof. intros σ a σ'. unfold weak_field. destruct (weaks σ !! this); [|done]. by intros [= _ <-]. Qed.

Lemma keeps_arc_field (this : positive) : keeps_blocks (arc_field this).
Proof. intros σ a σ'. unfold arc_field. destruct (arcs σ !! this); [|done]. by intros [= _ <-]. Qed.

Lemma keeps_fresh_weak : keeps_blocks fresh_weak.
Proof. by intros σ a σ' [= _ <-]. Qed.

Lemma keeps_deref (f : option positive) : keeps_blocks (deref f).
Proof.
  intros σ a σ'. unfold deref. destruct f as [cb|]; [|done].
  destruct (arc_blocks σ !! cb); [|done]. by intros [= _ <-].
Qed.

Lemma keeps_deref_weak (f : option positive) : keeps_blocks (deref_weak f).
Proof.
  intros σ a σ'. unfold deref_weak. destruct f as [wb|]; [|done].
  destruct (weak_blocks σ !! wb); [|done]. by intros [= _ <-].
Qed.

Lemma keeps_counted_at (a : positive) : keeps_blocks (counted_at a).
Proof.
  intros σ c σ'. unfold counted_at. destruct (counted σ !! a); [|done]. by intros [= _ <-].
Qed.

Lemma keeps_make_shared_ptr (ptr : option positive) : keeps_blocks (make_shared_ptr ptr).
Proof. by intros σ a σ' [= _ <-]. Qed.

Lemma keeps_alloc_weak_block (blk : WeakArcControlBlock.t) :
  keeps_blocks (alloc_weak_block blk).
Proof. by intros σ a σ' [= _ <-]. Qed.

(** [new ArcControlBlock] is the one step of [upgrade] that writes to the
    strong blocks, and it writes at an address that was not in use. *)
Lemma keeps_alloc_block (blk : ArcControlBlock.t) : keeps_blocks (alloc_block blk).
Proof.
  intros σ a σ' [= _ <-] cb blk' Hcb. cbn.
  rewrite lookup_insert_ne; [done|]. by eapply fresh_ne.
Qed.

Create HintDb keeps.
#[local] Hint Resolve keeps_ret keeps_stuck keeps_wild keeps_emit keeps_weak_field
  keeps_arc_field keeps_fresh_weak keeps_deref keeps_deref_weak keeps_counted_at
  keeps_make_shared_ptr keeps_alloc_weak_block keeps_alloc_block : keeps.

Ltac keeps :=
  repeat first
    [ apply keeps_bind; [|intros ?]
    | apply keeps_modify; intros ?; reflexivity
    | solve [auto with keeps]
    | match goal with
      | |- keeps_blocks (let '(_, _) := ?x in _) => destruct x
      | |- keeps_blocks (match ?x with _ => _ end) => destruct x
      end ].

Lemma keeps_weak_fetch_add wb o : keeps_blocks (weak_fetch_add wb o).
Proof. unfold weak_fetch_add, put_weak_block. keeps. Qed.

Lemma keeps_weak_fetch_sub wb o : keeps_blocks (weak_fetch_sub wb o).
Proof. unfold weak_fetch_sub, put_weak_block. keeps. Qed.

Lemma keeps_shared_ptr_get s : keeps_blocks (shared_ptr_get s).
Proof. unfold shared_ptr_get. keeps. Qed.

Lemma keeps_shared_ptr_release s : keeps_blocks (shared_ptr_release s).
Proof. unfold shared_ptr_release, deleter. keeps. Qed.

Lemma keeps_weak_ptr_from s : keeps_blocks (weak_ptr_from s).
Proof. unfold weak_ptr_from. keeps. Qed.

Lemma keeps_weak_ptr_lock w : keeps_blocks (weak_ptr_lock w).
Proof. unfold weak_ptr_lock. keeps. Qed.

Lemma keeps_weak_ptr_release w : keeps_blocks (weak_ptr_release w).
Proof. unfold weak_ptr_release. keeps. Qed.

#[local] Hint Resolve keeps_weak_fetch_add keeps_weak_fetch_sub keeps_shared_ptr_get
  keeps_shared_ptr_release keeps_weak_ptr_from keeps_weak_ptr_lock
  keeps_weak_ptr_release : keeps.

Lemma keeps_weak_ctor this arc : keeps_blocks (WeakArc.ctor this arc).
Proof. unfold WeakArc.ctor, WeakArc.new_WeakArcControlBlock, set_weak_field. keeps. Qed.

Lemma keeps_weak_copy_ctor this other : keeps_blocks (WeakArc.copy_ctor this other).
Proof. unfold WeakArc.copy_ctor, set_weak_field. keeps. Qed.

Lemma keeps_weak_dtor this : keeps_blocks (WeakArc.dtor this).
Proof.
  unfold WeakArc.dtor, WeakArc.release, WeakArc.delete_WeakArcControlBlock. keeps.
Qed.

#[local] Hint Resolve keeps_weak_ctor keeps_weak_copy_ctor keeps_weak_dtor : keeps.

Lemma keeps_weak_assign_stmt this other : keeps_blocks (WeakArc.assign_stmt this other).
Proof.
  unfold WeakArc.assign_stmt, WeakArc.operator_assign, set_weak_field. keeps.
Qed.

Lemma keeps_weak_upgrade this result : keeps_blocks (WeakArc.upgrade this result).
Proof.
  unfold WeakArc.upgrade, Arc.ctor, Arc.new_ArcControlBlock, set_arc_field. keeps.
Qed.

Lemma weak_ops_keep_blocks (o : weak_op) : keeps_blocks (run_weak_op o).
Proof.
  destruct o; cbn [run_weak_op];
    auto using keeps_weak_assign_stmt, keeps_weak_upgrade with keeps.
Qed.

(** ** Making a [WeakArc] *)

(** C8.  [WeakArc(arc)] allocates a [WeakArcControlBlock] with count 1 whose
    [weak_ptr] observes the record behind [arc]'s [data]; the strong control
    blocks and the [Arc] objects are left as they were, [strong_count]
    included, and the payload stays alive and the same.  Moreover no
    [WeakArc] member, [upgrade] included, changes any live
    [ArcControlBlock]. *)
Theorem weak_ctor_frame (this arc cb s : positive) (blk : ArcControlBlock.t)
    (c : sp_counted) (σ : heap) :
  arcs σ !! arc = Some (Some cb) →
  arc_blocks σ !! cb = Some blk →
  ArcControlBlock.data blk = Some s →
  counted σ !! s = Some c →
  (∃ σ' wb,
     WeakArc.ctor this arc σ = Done tt σ' ∧
     weak_blocks σ !! wb = None ∧
     weaks σ' !! this = Some (Some wb) ∧
     weak_blocks σ' !! wb = Some (WeakArcControlBlock.mk 1 (Some s)) ∧
     weak_refs wb σ' = Some 1 ∧
     arc_blocks σ' = arc_blocks σ ∧
     arcs σ' = arcs σ ∧
     strong_count cb σ' = strong_count cb σ ∧
     counted σ' !! s = Some (SpCounted (use_count c) (S (weak_count c)) (managed c)) ∧
     trace σ' = trace σ) ∧
  (∀ (o : weak_op) (σ1 σ2 : heap) (cb' : positive) (blk' : ArcControlBlock.t),
     run_weak_op o σ1 = Done tt σ2 →
     arc_blocks σ1 !! cb' = Some blk' →
     arc_blocks σ2 !! cb' = Some blk' ∧ strong_count cb' σ2 = strong_count cb' σ1).
Proof.
  intros Ha Hb Hd Hs. split.
  - eexists _, (fresh (dom (weak_blocks σ))).
    split; [unfold_ops; exec; rewrite Hd; exec; reflexivity|].
    cbn [weaks weak_blocks arc_blocks arcs counted trace].
    split; [apply fresh_lookup|]. split; [apply lookup_insert_eq|].
    split; [apply lookup_insert_eq|]. unfold weak_refs. cbn [weak_blocks].
    rewrite !lookup_insert_eq. done.
  - intros o σ1 σ2 cb' blk' Hrun Hcb'.
    pose proof (weak_ops_keep_blocks o σ1 tt σ2 Hrun cb' blk' Hcb') as Hk.
    split; [exact Hk|]. unfold strong_count. by rewrite Hk, Hcb'.
Qed.

Lemma weak_ctor_frame_witness :
  ∃ σ', WeakArc.ctor 5 1 one_owner = Done tt σ' ∧
        weak_refs 1 σ' = Some 1 ∧ strong_count 1 σ' = Some 1.
Proof.
  destruct (weak_ctor_frame 5 1 1 1 (ArcControlBlock.mk 1 unlocked (Some 1%positive))
              (SpCounted 1 0 (Some 10%positive)) one_owner)
    as [(σ' & wb & Hrun & _ & _ & _ & _ & _ & _ & _) _]; try reflexivity.
  exists σ'. split; [exact Hrun|].
  revert Hrun. vm_compute. intros [= <-]. split; reflexivity.
Defined.

(** ** [upgrade] *)

Section upgrade.
Variables (this result wb s : positive) (wblk : WeakArcControlBlock.t)
  (c : sp_counted) (σ : heap).
Hypothesis Hthis : weaks σ !! this = Some (Some wb).
Hypothesis Hwb : weak_blocks σ !! wb = Some wblk.
Hypothesis Hobs : WeakArcControlBlock.data wblk = Some s.
Hypothesis Hs : counted σ !! s = Some c.

(** The payload is alive: the raw pointer is wrapped in a new
    [ArcControlBlock] with a bookkeeping record of its own. *)
Lemma upgrade_alive (p : positive) :
  (0 < use_count c)%nat →
  managed c = Some p →
  WeakArc.upgrade this result σ =
    Done tt (Heap (<[fresh (dom (arc_blocks σ)) :=
                      ArcControlBlock.mk 1 unlocked (Some (fresh (dom (counted σ))))]>
                     (arc_blocks σ))
               (weak_blocks σ)
               (<[fresh (dom (counted σ)) := SpCounted 1 0 (Some p)]> (counted σ))
               (<[result := Some (fresh (dom (arc_blocks σ)))]> (arcs σ))
               (weaks σ) (trace σ)).
Proof.
  destruct c as [u w mg]. cbn. intros Hu ->. destruct u as [|u]; [lia|].
  unfold_ops. exec. rewrite Hobs. exec.
  assert (Hdom : dom (<[s := SpCounted (S (S u)) w (Some p)]> (counted σ))
                 = dom (counted σ)) by (by apply dom_insert_lookup_L).
  rewrite Hdom.
  pose proof (fresh_ne _ _ _ Hs) as Hne.
  exec. do 2 f_equal.
  rewrite (insert_insert_ne _ s), insert_insert_eq by done.
  rewrite (insert_id _ s) by done. reflexivity.
Qed.

End upgrade.

Lemma upgrade_alive_null (this result wb s : positive) (wblk : WeakArcControlBlock.t)
    (c : sp_counted) (σ : heap) :
  weaks σ !! this = Some (Some wb) →
  weak_blocks σ !! wb = Some wblk →
  WeakArcControlBlock.data wblk = Some s →
  counted σ !! s = Some c →
  (0 < use_count c)%nat →
  managed c = None →
  WeakArc.upgrade this result σ =
    Done tt (Heap (<[fresh (dom (arc_blocks σ)) :=
                      ArcControlBlock.mk 1 unlocked (Some (fresh (dom (counted σ))))]>
                     (arc_blocks σ))
               (weak_blocks σ)
               (<[fresh (dom (counted σ)) := SpCounted 1 0 None]> (counted σ))
               (<[result := Some (fresh (dom (arc_blocks σ)))]> (arcs σ))
               (weaks σ) (trace σ)).
Proof.
  intros Hthis Hwb Hobs Hs. destruct c as [u w mg]. cbn. intros Hu ->.
  destruct u as [|u]; [lia|].
  unfold_ops. exec. rewrite Hobs. exec.
  assert (Hdom : dom (<[s := SpCounted (S (S u)) w None]> (counted σ))
                 = dom (counted σ)) by (by apply dom_insert_lookup_L).
  rewrite Hdom.
  pose proof (fresh_ne _ _ _ Hs) as Hne.
  exec. do 2 f_equal.
  rewrite (insert_insert_ne _ s), insert_insert_eq by done.
  rewrite (insert_id _ s) by done. reflexivity.
Qed.

Lemma get_run (this cb s : positive) (blk : ArcControlBlock.t) (c : sp_counted)
    (σ : heap) :
  arcs σ !! this = Some (Some cb) →
  arc_blocks σ !! cb = Some blk →
  ArcControlBlock.data blk = Some s →
  counted σ !! s = Some c →
  Arc.get this σ = Done (managed c) σ.
Proof. intros Ht Hb Hd Hs. unfold_ops. exec. rewrite Hd. exec. reflexivity. Qed.


Lemma dtor_last_owner (this cb s p : positive) (blk : ArcControlBlock.t)
    (c : sp_counted) (σ : heap) :
  arcs σ !! this = Some (Some cb) →
  arc_blocks σ !! cb = Some blk →
  ArcControlBlock.ref_count blk = 1 →
  ArcControlBlock.mutex blk = unlocked →
  ArcControlBlock.data blk = Some s →
  counted σ !! s = Some c →
  use_count c = 1%nat →
  managed c = Some p →
  Arc.dtor this σ =
    Done tt (Heap (delete cb (arc_blocks σ))
               (weak_blocks σ)
               (match weak_count c with
                | O => delete s (counted σ)
                | S _ => <[s := SpCounted 0 (weak_count c) (Some p)]> (counted σ)
                end)
               (delete this (arcs σ)) (weaks σ)
               (trace σ ++ [EvFetchSub (StrongCount cb) memory_order_release;
                            EvFence memory_order_acquire;
                            EvLock cb;
                            EvLoad (StrongCount cb) memory_order_relaxed;
                            EvDeletePayload p;
                            EvFreeBlock cb;
                            EvUnlock cb])).
Proof.
  intros. unfold Arc.dtor, mbind, M_bind, bind.
  erewrite release_last_owner by eassumption. reflexivity.
Qed.

Lemma dtor_not_last (this cb : positive) (blk : ArcControlBlock.t) (σ : heap) :
  arcs σ !! this = Some (Some cb) →
  arc_blocks σ !! cb = Some blk →
  ArcControlBlock.ref_count blk ≠ 1 →
  Arc.dtor this σ =
    Done tt (Heap (<[cb := ArcControlBlock.mk
                            (wrap_int (ArcControlBlock.ref_count blk - 1))
                            (ArcControlBlock.mutex blk) (ArcControlBlock.data blk)]>
                     (arc_blocks σ))
               (weak_blocks σ) (counted σ) (delete this (arcs σ)) (weaks σ)
               (trace σ ++ [EvFetchSub (StrongCount cb) memory_order_release])).
Proof.
  intros. unfold Arc.dtor, mbind, M_bind, bind.
  erewrite release_not_last by eassumption. reflexivity.
Qed.




(** The [Arc] that [upgrade] returns owns the payload a second time, on a
    record of its own: it does not keep the observed record alive (a later
    [upgrade] is null although it still exists), and destroying both owners
    runs the deleter twice on the one payload. *)
Example rewrapped_owner_is_separate :
  value ((Arc.ctor 1 (Some 10%positive);; WeakArc.ctor 5 1;; WeakArc.upgrade 5 2;;
          Arc.dtor 1;; WeakArc.upgrade 5 3;; Arc.get 3) empty_heap) = Some None ∧
  destroyed 10
    <$> final ((Arc.ctor 1 (Some 10%positive);; WeakArc.ctor 5 1;; WeakArc.upgrade 5 2;;
                Arc.dtor 1;; Arc.dtor 2) empty_heap) = Some 2%nat.
Proof. split; vm_compute; reflexivity. Qed.

(** ** [get_mut] *)

Lemma get_mut_run (arc cb s : positive) (blk : ArcControlBlock.t) (c : sp_counted)
    (σ : heap) :
  arcs σ !! arc = Some (Some cb) →
  arc_blocks σ !! cb = Some blk →
  ArcControlBlock.mutex blk = unlocked →
  ArcControlBlock.data blk = Some s →
  counted σ !! s = Some c →
  get_mut arc σ =
    Done (managed c)
      (Heap (arc_blocks σ) (weak_blocks σ) (counted σ) (arcs σ) (weaks σ)
         (trace σ ++ [EvLock cb; EvUnlock cb])).
Proof.
  destruct blk as [rc mx dt]. cbn. intros Ha Hb -> -> Hs.
  unfold_ops. exec. do 2 f_equal.
  - rewrite alter_insert_same. cbn. by apply insert_id.
  - by rewrite <- app_assoc.
Qed.

(** C4.  [get_mut] takes the exclusive lock, reads the payload pointer and
    gives the lock back before it returns: when the caller receives the
    pointer the mutex is unlocked again, so that a second [get_mut] and a
    [clone] on the same control block succeed at once, before the first
    caller has used its pointer. *)
Theorem get_mut_unlocks_before_return (arc result cb s : positive)
    (blk : ArcControlBlock.t) (c : sp_counted) (σ : heap) :
  arcs σ !! arc = Some (Some cb) →
  arc_blocks σ !! cb = Some blk →
  ArcControlBlock.mutex blk = unlocked →
  ArcControlBlock.data blk = Some s →
  counted σ !! s = Some c →
  ∃ σ',
    get_mut arc σ = Done (managed c) σ' ∧
    trace σ' = trace σ ++ [EvLock cb; EvUnlock cb] ∧
    ArcControlBlock.mutex <$> arc_blocks σ' !! cb = Some unlocked ∧
    forget_trace σ' = forget_trace σ ∧
    (∃ σ'', get_mut arc σ' = Done (managed c) σ'') ∧
    (∃ σ'', Arc.clone arc result σ' = Done tt σ'').
Proof.
  intros Ha Hb Hmx Hd Hs.
  eexists. split; [by eapply get_mut_run|].
  cbn [trace arc_blocks]. split; [done|]. rewrite Hb. cbn. rewrite Hmx.
  split; [done|]. split; [done|]. split.
  - eexists. by eapply get_mut_run.
  - eexists. eapply clone_run; cbn; eauto. by rewrite Hmx.
Qed.

Lemma get_mut_unlocks_before_return_witness :
  ∃ σ', get_mut 2 two_owners = Done (Some 10%positive) σ' ∧
        trace σ' = [EvLock 1; EvUnlock 1] ∧
        ArcControlBlock.mutex <$> arc_blocks σ' !! 1%positive = Some unlocked.
Proof.
  destruct (get_mut_unlocks_before_return 2 3 1 1
              (ArcControlBlock.mk 2 unlocked (Some 1%positive))
              (SpCounted 1 0 (Some 10%positive)) two_owners)
    as (σ' & Hrun & Htr & Hmx & _); try reflexivity.
  exists σ'. split; [exact Hrun|]. split; [exact Htr|exact Hmx].
Defined.

(** In the program of [main.cpp] the write of 99 comes after the unlock. *)
Example main_prefix_trace :
  trace <$> final (main_prefix 1 2 10 empty_heap) =
    Some [EvLockShared 1; EvFetchAdd (StrongCount 1) memory_order_relaxed;
          EvUnlockShared 1; EvLock 1; EvUnlock 1; EvWrite 10 99].
Proof. vm_compute. reflexivity. Qed.

(** Two mutable views of one payload at the same time, and a clone in
    between, with no lock held when either view is written through. *)
Example overlapping_views_trace :
  trace <$> final (overlapping_views 1 2 3 10 empty_heap) =
    Some [EvLockShared 1; EvFetchAdd (StrongCount 1) memory_order_relaxed;
          EvUnlockShared 1;
          EvLock 1; EvUnlock 1;
          EvLock 1; EvUnlock 1;
          EvLockShared 1; EvFetchAdd (StrongCount 1) memory_order_relaxed;
          EvUnlockShared 1;
          EvWrite 10 99; EvWrite 10 7].
Proof. vm_compute. reflexivity. Qed.

(** ** The null variant *)

Example null_arc_constructed : Arc.ctor 1 None empty_heap = Done tt null_arc.
Proof. vm_compute. reflexivity. Qed.








(** ** Assignment between two [Arc]s *)

(** Two [Arc] objects that point at one control block: [operator=] passes
    the same mutex twice to [std::lock] and does not come back. *)
Lemma operator_assign_same_block (this other result cb : positive)
    (blk : ArcControlBlock.t) (σ : heap) :
  this ≠ other →
  arcs σ !! this = Some (Some cb) →
  arcs σ !! other = Some (Some cb) →
  arc_blocks σ !! cb = Some blk →
  Arc.operator_assign this other result σ = Stuck.
Proof. intros Hne Ht Ho Hb. unfold_ops. exec; reflexivity. Qed.


(** C1 at its failing input.  After [Arc a(p); Arc b(a);] the two objects
    share one control block, and [b = a;] does not return, in whatever store
    it is run: neither the operator nor the statement has a final store, so
    nothing that follows the assignment in a program is ever run. *)
Theorem assign_shared_block_stuck (this other cb : positive)
    (blk : ArcControlBlock.t) (σ : heap) :
  this ≠ other →
  arcs σ !! this = Some (Some cb) →
  arcs σ !! other = Some (Some cb) →
  arc_blocks σ !! cb = Some blk →
  (∀ result, Arc.operator_assign this other result σ = Stuck) ∧
  Arc.assign_stmt this other σ = Stuck ∧
  (∀ rest : M unit, (Arc.assign_stmt this other;; rest) σ = Stuck).
Proof.
  intros Hne Ht Ho Hb.
  assert (Hop : ∀ result, Arc.operator_assign this other result σ = Stuck)
    by (intros result; by eapply operator_assign_same_block).
  assert (Hst : Arc.assign_stmt this other σ = Stuck).
  { unfold Arc.assign_stmt, fresh_arc, mbind, M_bind, bind. by rewrite Hop. }
  split; [exact Hop|]. split; [exact Hst|].
  intros rest. unfold mbind, M_bind, bind. by rewrite Hst.
Qed.

Lemma assign_shared_block_stuck_witness :
  Arc.assign_stmt 2 1 two_owners = Stuck.
Proof.
  apply (assign_shared_block_stuck 2 1 1
           (ArcControlBlock.mk 2 unlocked (Some 1%positive)) two_owners);
    [discriminate | reflexivity | reflexivity | reflexivity].
Defined.

(** The same from the empty store: construct, copy, assign, and the two
    destructions that should follow are never reached. *)
Example copy_then_assign_stuck :
  (Arc.ctor 1 (Some 10%positive);; Arc.copy_ctor 2 1;; Arc.assign_stmt 2 1;;
   Arc.dtor 1;; Arc.dtor 2) empty_heap = Stuck.
Proof. vm_compute. reflexivity. Qed.

(** An assignment that does return: two blocks, and [this] is not the last
    owner of its own.  The old block loses one, the new block gains one. *)
Example assign_between_families :
  (λ σ, (strong_count 1 σ, strong_count 2 σ, arcs σ !! 2%positive))
    <$> final ((Arc.ctor 1 (Some 10%positive);; Arc.ctor 2 (Some 11%positive);;
                Arc.copy_ctor 3 2;; Arc.assign_stmt 2 1) empty_heap)
  = Some (Some 2, Some 1, Some (Some 1%positive)).
Proof. vm_compute. reflexivity. Qed.

(** ** Copies and destructions on one control block *)

Section family.
Variables (cb s p : positive) (w : nat).

Lemma family_copy (live : gset positive) (σ : heap) (result source : positive) :
  family cb s p w live σ →
  source ∈ live →
  result ∉ live →
  Z.of_nat (size live) < INT_MAX →
  ∃ σ', Arc.copy_ctor result source σ = Done tt σ' ∧
        family cb s p w ({[result]} ∪ live) σ' ∧
        destroyed p σ' = destroyed p σ.
Proof.
  intros (Hb & Hs & Ha) Hsrc Hres Hlt.
  assert (Hsz : size ({[result]} ∪ live) = S (size live)).
  { rewrite size_union by set_solver. by rewrite size_singleton. }
  eexists. split.
  { eapply copy_ctor_run; [|exact Hb].
    rewrite Ha. apply lookup_gset_to_gmap_Some. done. }
  split; [split; [|split]|]; cbn [arc_blocks counted arcs].
  - rewrite lookup_insert_eq. cbn. rewrite Hsz.
    rewrite wrap_int_id by (unfold INT_MIN, INT_MAX in *; lia).
    do 2 f_equal. lia.
  - done.
  - by rewrite Ha, gset_to_gmap_union_singleton.
  - unfold destroyed. cbn [trace]. rewrite filter_app, length_app. count_events.
Qed.

Lemma family_destroy_other (live : gset positive) (σ : heap) (this : positive) :
  family cb s p w live σ →
  this ∈ live →
  size live ≠ 1%nat →
  Z.of_nat (size live) ≤ INT_MAX →
  ∃ σ', Arc.dtor this σ = Done tt σ' ∧
        family cb s p w (live ∖ {[this]}) σ' ∧
        live ∖ {[this]} ≠ ∅ ∧
        destroyed p σ' = destroyed p σ.
Proof.
  intros (Hb & Hs & Ha) Hin Hne Hle.
  assert (Hsz : size (live ∖ {[this]}) = (size live - 1)%nat).
  { rewrite size_difference by set_solver. by rewrite size_singleton. }
  assert (Hpos : (0 < size live)%nat).
  { destruct (size live) eqn:E; [|lia].
    apply size_empty_inv in E. set_solver. }
  eexists. split.
  { eapply dtor_not_last; [|exact Hb|cbn; lia].
    rewrite Ha. apply lookup_gset_to_gmap_Some. done. }
  split; [split; [|split]|split]; cbn [arc_blocks counted arcs].
  - rewrite lookup_insert_eq. cbn. rewrite Hsz.
    rewrite wrap_int_id by (unfold INT_MIN, INT_MAX in *; lia).
    do 2 f_equal. lia.
  - done.
  - by rewrite Ha, gset_to_gmap_difference_singleton.
  - intros E. rewrite E, size_empty in Hsz. lia.
  - unfold destroyed. cbn [trace]. rewrite filter_app, length_app. count_events.
Qed.

Lemma family_destroy_last (live : gset positive) (σ : heap) (this : positive) :
  family cb s p w live σ →
  this ∈ live →
  size live = 1%nat →
  ∃ σ', Arc.dtor this σ = Done tt σ' ∧
        live ∖ {[this]} = ∅ ∧
        arcs σ' = ∅ ∧
        arc_blocks σ' !! cb = None ∧
        destroyed p σ' = S (destroyed p σ).
Proof.
  intros (Hb & Hs & Ha) Hin Hone.
  assert (Hemp : live ∖ {[this]} = ∅).
  { apply leibniz_equiv, size_empty_inv.
    rewrite size_difference by set_solver. rewrite size_singleton. lia. }
  eexists. split.
  { eapply dtor_last_owner; [|exact Hb|cbn; lia|done|done|exact Hs|done|done].
    rewrite Ha. apply lookup_gset_to_gmap_Some. done. }
  cbn [arc_blocks arcs]. split; [done|].
  split; [by rewrite Ha, <- gset_to_gmap_difference_singleton, Hemp, gset_to_gmap_empty|].
  split; [apply lookup_delete_eq|].
  unfold destroyed. cbn [trace]. rewrite filter_app, length_app. count_events.
Qed.

(** Every well-scoped sequence of copies and destructions on the family
    runs to its end.  As long as an [Arc] is left, the count is the number
    of [Arc]s (so at least 1) and the deleter has not run; once the last
    one has been destroyed, the deleter has run once, the block is freed,
    and no [Arc] is left for a further operation. *)
Lemma family_lifecycle (ops : list owner_op) :
  ∀ (live : gset positive) (σ : heap),
    family cb s p w live σ →
    live ≠ ∅ →
    well_scoped live ops →
    Z.of_nat (size live) + Z.of_nat (length ops) ≤ INT_MAX →
    ∃ σ', run_owner_ops ops σ = Done tt σ' ∧
          if decide (live_after live ops = ∅)
          then destroyed p σ' = S (destroyed p σ) ∧
               arc_blocks σ' !! cb = None ∧ arcs σ' = ∅
          else family cb s p w (live_after live ops) σ' ∧
               strong_count cb σ' = Some (Z.of_nat (size (live_after live ops))) ∧
               1 ≤ Z.of_nat (size (live_after live ops)) ∧
               destroyed p σ' = destroyed p σ.
Proof.
  induction ops as [|o ops IH]; intros live σ Hfam Hne Hsc Hbound.
  - exists σ. split; [reflexivity|]. cbn [live_after foldl].
    rewrite decide_False by done. split; [done|].
    destruct Hfam as (Hb & _). unfold strong_count. rewrite Hb. cbn.
    split; [done|]. split; [|done].
    destruct (size live) eqn:E; [|lia]. apply size_empty_inv in E. set_solver.
  - cbn [length] in Hbound. destruct Hsc as [Ho Hsc].
    cbn [run_owner_ops]. unfold mbind, M_bind, bind.
    destruct o as [result source|this]; cbn [run_owner_op step_live] in *.
    + destruct Ho as [Hsrc Hres].
      destruct (family_copy live σ result source) as (σ1 & Hrun & Hfam1 & Hd1);
        [done..|lia|].
      rewrite Hrun.
      destruct (IH ({[result]} ∪ live) σ1) as (σ' & Hrun' & Hend);
        [done|set_solver|done| |].
      { rewrite size_union by set_solver. rewrite size_singleton. lia. }
      exists σ'. split; [exact Hrun'|].
      change (live_after live (Copy result source :: ops))
        with (live_after ({[result]} ∪ live) ops).
      by rewrite <- Hd1.
    + destruct (decide (size live = 1%nat)) as [Hone|Hmany].
      * destruct (family_destroy_last live σ this) as (σ1 & Hrun & Hemp & Ha & Hb & Hd);
          [done..|].
        rewrite Hrun. rewrite Hemp in Hsc.
        destruct ops as [|o' ops'].
        -- exists σ1. split; [reflexivity|].
           change (live_after live [Destroy this]) with (live ∖ {[this]}).
           rewrite decide_True by done. done.
        -- exfalso. destruct Hsc as [Hbad _].
           destruct o' as [r s0|t]; [destruct Hbad as [Hbad _]|];
             exact (not_elem_of_empty _ Hbad).
      * destruct (family_destroy_other live σ this) as (σ1 & Hrun & Hfam1 & Hne1 & Hd1);
          [done..|lia|].
        rewrite Hrun.
        destruct (IH (live ∖ {[this]}) σ1) as (σ' & Hrun' & Hend);
          [done|done|done| |].
        { rewrite size_difference by set_solver. rewrite size_singleton. lia. }
        exists σ'. split; [exact Hrun'|].
        change (live_after live (Destroy this :: ops))
          with (live_after (live ∖ {[this]}) ops).
        by rewrite <- Hd1.
Qed.
End family.

(** The first [Arc] of a family: [Arc a(p)] in a store without [Arc]s. *)
Lemma ctor_family (this p : positive) (σ : heap) :
  arcs σ = ∅ →
  ∃ σ', Arc.ctor this (Some p) σ = Done tt σ' ∧
        family (fresh (dom (arc_blocks σ))) (fresh (dom (counted σ))) p 0 {[this]} σ' ∧
        destroyed p σ' = destroyed p σ.
Proof.
  intros Ha. eexists. split; [unfold_ops; exec; reflexivity|].
  split; [|reflexivity]. split; [|split]; cbn [arc_blocks counted arcs].
  - rewrite lookup_insert_eq, size_singleton. reflexivity.
  - apply lookup_insert_eq.
  - rewrite Ha, gset_to_gmap_singleton. reflexivity.
Qed.

(** The scenario of the specification: [A] over a payload, a copy [B],
    both destroyed; one run of the deleter, after the second destruction. *)
Example two_owners_destroyed_once :
  (λ σ, (destroyed 10 σ, map_to_list (arc_blocks σ)))
    <$> final ((Arc.ctor 1 (Some 10%positive);; Arc.copy_ctor 2 1;;
                Arc.dtor 1;; Arc.dtor 2) empty_heap) = Some (1%nat, []) ∧
  (λ σ, (destroyed 10 σ, strong_count 1 σ))
    <$> final ((Arc.ctor 1 (Some 10%positive);; Arc.copy_ctor 2 1;;
                Arc.dtor 1) empty_heap) = Some (0%nat, Some 1).
Proof. split; vm_compute; reflexivity. Qed.

(** * Further properties of the header *)

(** ** More finite-map facts *)

Lemma delete_insert_absent {V} (m : gmap positive V) (k : positive) (v : V) :
  m !! k = None → delete k (<[k := v]> m) = m.
Proof. intros H. rewrite delete_insert_eq. by apply delete_id. Qed.

Lemma fresh_dom_insert {V} (m : gmap positive V) (k : positive) (v v' : V) :
  m !! k = Some v → fresh (dom (<[k := v']> m)) = fresh (dom m).
Proof. intros H. by rewrite dom_insert_lookup_L. Qed.

Lemma delete_between_inserts {V} (k k' : positive) (a b c : V) (m : gmap positive V) :
  k' ≠ k →
  m !! k' = None →
  delete k' (<[k := a]> (<[k' := b]> (<[k := c]> m))) = <[k := a]> m.
Proof.
  intros Hne Hk. apply map_eq. intros i.
  repeat first [rewrite lookup_delete | rewrite lookup_insert].
  repeat case_decide; simplify_eq; done.
Qed.

Ltac tidy_maps :=
  repeat first
    [ rewrite insert_insert_eq
    | rewrite delete_insert_eq
    | rewrite alter_insert_same
    | rewrite alter_absent by apply lookup_delete_eq
    | rewrite delete_id by apply fresh_lookup
    | rewrite delete_id by assumption ].

Ltac count_long :=
  repeat first [ rewrite filter_cons_True by reflexivity
               | rewrite filter_cons_False by (intros ?; discriminate)
               | rewrite filter_nil ];
  cbn [length]; lia.


(** ** Construction *)

Lemma ctor_run (this : positive) (ptr : option positive) (σ : heap) :
  Arc.ctor this ptr σ =
    Done tt (Heap (<[fresh (dom (arc_blocks σ)) :=
                      ArcControlBlock.mk 1 unlocked (Some (fresh (dom (counted σ))))]>
                     (arc_blocks σ))
               (weak_blocks σ)
               (<[fresh (dom (counted σ)) := SpCounted 1 0 ptr]> (counted σ))
               (<[this := Some (fresh (dom (arc_blocks σ)))]> (arcs σ))
               (weaks σ) (trace σ)).
Proof. unfold_ops. exec. reflexivity. Qed.

(** X1.  [Arc(ptr)] works in every store and for every pointer, null
    included: the new object points at a control block that was not in use,
    with count 1 and a free mutex; [get()] on it gives back [ptr] and leaves
    the store alone; every control block and every [Arc] that existed is
    left as it was, and no event is recorded. *)
Theorem ctor_then_get (this : positive) (ptr : option positive) (σ : heap) :
  ∃ σ' cb,
    Arc.ctor this ptr σ = Done tt σ' ∧
    arc_blocks σ !! cb = None ∧
    arcs σ' !! this = Some (Some cb) ∧
    strong_count cb σ' = Some 1 ∧
    ArcControlBlock.mutex <$> arc_blocks σ' !! cb = Some unlocked ∧
    Arc.get this σ' = Done ptr σ' ∧
    (∀ cb' blk, arc_blocks σ !! cb' = Some blk → arc_blocks σ' !! cb' = Some blk) ∧
    (∀ h, h ≠ this → arcs σ' !! h = arcs σ !! h) ∧
    weak_blocks σ' = weak_blocks σ ∧
    trace σ' = trace σ.
Proof.
  eexists _, (fresh (dom (arc_blocks σ))). split; [apply ctor_run|].
  cbn [arc_blocks arcs weak_blocks trace].
  split; [apply fresh_lookup|]. split; [apply lookup_insert_eq|].
  unfold strong_count. cbn [arc_blocks]. rewrite lookup_insert_eq. cbn.
  split; [done|]. split; [done|]. split.
  { rewrite (get_run this (fresh (dom (arc_blocks σ))) (fresh (dom (counted σ)))
               (ArcControlBlock.mk 1 unlocked (Some (fresh (dom (counted σ)))))
               (SpCounted 1 0 ptr));
      [done | cbn; apply lookup_insert_eq ..| done | cbn; apply lookup_insert_eq]. }
  split.
  { intros cb' blk Hcb'. rewrite lookup_insert_ne; [done|]. by eapply fresh_ne. }
  split; [|done]. intros h Hh. by rewrite lookup_insert_ne.
Qed.

(** ** A copy and its destruction *)

(** X2.  Copying an [Arc] and destroying the copy gives back the store as
    it was, for every count from 1 to [INT_MAX] (at [INT_MAX] the count
    passes through [INT_MIN] and comes back): no lock is taken, the only
    events are the relaxed increment and the release decrement, and nothing
    is destroyed. *)
Theorem copy_then_destroy_restores (this result cb : positive)
    (blk : ArcControlBlock.t) (σ : heap) :
  arcs σ !! this = Some (Some cb) →
  arc_blocks σ !! cb = Some blk →
  arcs σ !! result = None →
  1 ≤ ArcControlBlock.ref_count blk ≤ INT_MAX →
  ∃ σ',
    (Arc.copy_ctor result this;; Arc.dtor result) σ = Done tt σ' ∧
    forget_trace σ' = forget_trace σ ∧
    trace σ' = trace σ ++ [EvFetchAdd (StrongCount cb) memory_order_relaxed;
                           EvFetchSub (StrongCount cb) memory_order_release] ∧
    ∀ q, destroyed q σ' = destroyed q σ.
Proof.
  intros Ht Hb Hres Hrc.
  pose proof (wrap_int_succ_ne_1 _ Hrc) as Hne.
  assert (Hback : wrap_int (wrap_int (ArcControlBlock.ref_count blk + 1) - 1)
                  = ArcControlBlock.ref_count blk).
  { apply wrap_int_succ_pred. unfold INT_MIN, INT_MAX in *. lia. }
  assert (Hrun : (Arc.copy_ctor result this;; Arc.dtor result) σ =
                 Done tt (Heap (arc_blocks σ) (weak_blocks σ) (counted σ) (arcs σ) (weaks σ)
                            (trace σ ++ [EvFetchAdd (StrongCount cb) memory_order_relaxed;
                                         EvFetchSub (StrongCount cb) memory_order_release]))).
  { unfold_ops. exec. do 2 f_equal.
    - rewrite insert_insert_eq. destruct blk. by apply insert_id.
    - by apply delete_insert_absent.
    - by rewrite <- app_assoc. }
  eexists. split; [exact Hrun|]. split; [reflexivity|]. split; [reflexivity|].
  intros q. unfold destroyed. cbn [trace]. rewrite filter_app, length_app.
  count_events.
Qed.

Lemma copy_then_destroy_restores_witness :
  ∃ σ', (Arc.copy_ctor 2 1;; Arc.dtor 2) one_owner = Done tt σ' ∧
        forget_trace σ' = forget_trace one_owner.
Proof.
  destruct (copy_then_destroy_restores 1 2 1
              (ArcControlBlock.mk 1 unlocked (Some 1%positive)) one_owner)
    as (σ' & Hrun & Hsame & _);
    [reflexivity | reflexivity | reflexivity | unfold INT_MAX; cbn; lia |].
  exists σ'. split; [exact Hrun|exact Hsame].
Defined.

(** ** Assignment between two control blocks *)





(** ** Readers *)

(** X5.  The body of a reader thread of [main.cpp], run to its end, leaves
    the store as it found it and returns the payload pointer of the [Arc] it
    copied: the copy is counted and uncounted again, the shared lock is
    taken after the copy and given back before the copy is destroyed, and
    readers that were already there are not disturbed. *)
Theorem reader_thread_restores (arc localArc cb s p : positive)
    (blk : ArcControlBlock.t) (c : sp_counted) (σ : heap) :
  arcs σ !! arc = Some (Some cb) →
  arcs σ !! localArc = None →
  arc_blocks σ !! cb = Some blk →
  writer (ArcControlBlock.mutex blk) = false →
  ArcControlBlock.data blk = Some s →
  1 ≤ ArcControlBlock.ref_count blk ≤ INT_MAX →
  counted σ !! s = Some c →
  managed c = Some p →
  ∃ σ',
    reader_thread arc localArc σ = Done (Some p) σ' ∧
    forget_trace σ' = forget_trace σ ∧
    trace σ' = trace σ ++ [EvFetchAdd (StrongCount cb) memory_order_relaxed;
                           EvLockShared cb;
                           EvUnlockShared cb;
                           EvFetchSub (StrongCount cb) memory_order_release].
Proof.
  intros Ha Hl Hb Hw Hd Hrc Hs Hp.
  destruct blk as [rc [wr rd] dt], c as [u w mg]. cbn in *. subst wr dt mg.
  pose proof (wrap_int_succ_ne_1 _ Hrc) as Hne.
  assert (Hback : wrap_int (wrap_int (rc + 1) - 1) = rc).
  { apply wrap_int_succ_pred. unfold INT_MIN, INT_MAX in *. lia. }
  assert (Hla : localArc ≠ arc) by (intros ->; congruence).
  exists (Heap (arc_blocks σ) (weak_blocks σ) (counted σ) (arcs σ) (weaks σ)
            (trace σ ++ [EvFetchAdd (StrongCount cb) memory_order_relaxed;
                         EvLockShared cb;
                         EvUnlockShared cb;
                         EvFetchSub (StrongCount cb) memory_order_release])).
  split; [|split; reflexivity].
  unfold reader_thread, shared_lock. unfold_ops. exec.
  rewrite alter_insert_same. exec.
  do 2 f_equal.
  - rewrite !insert_insert_eq. by apply insert_id.
  - by apply delete_insert_absent.
  - by rewrite <- !app_assoc.
Qed.

Lemma reader_thread_restores_witness :
  ∃ σ', reader_thread 1 3 two_owners = Done (Some 10%positive) σ' ∧
        forget_trace σ' = forget_trace two_owners.
Proof.
  destruct (reader_thread_restores 1 3 1 1 10
              (ArcControlBlock.mk 2 unlocked (Some 1%positive))
              (SpCounted 1 0 (Some 10%positive)) two_owners)
    as (σ' & Hrun & Hsame & _);
    [reflexivity | reflexivity | reflexivity | reflexivity | reflexivity
    | unfold INT_MAX; cbn; lia | reflexivity | reflexivity |].
  exists σ'. split; [exact Hrun|exact Hsame].
Defined.

(** X6.  While a caller holds the shared lock it took through [mutex()],
    [get_mut] on any [Arc] of the same control block does not get the
    exclusive lock, whereas [clone] on it goes through; once the shared lock
    is given back the mutex is as before. *)
Theorem shared_lock_excludes_get_mut (arc arc2 result cb : positive)
    (blk : ArcControlBlock.t) (σ : heap) :
  arcs σ !! arc = Some (Some cb) →
  arcs σ !! arc2 = Some (Some cb) →
  arc_blocks σ !! cb = Some blk →
  writer (ArcControlBlock.mutex blk) = false →
  ∃ σ1,
    shared_lock arc σ = Done cb σ1 ∧
    get_mut arc2 σ1 = Stuck ∧
    (∃ σ2, Arc.clone arc2 result σ1 = Done tt σ2) ∧
    ∃ σ3, unlock_shared cb σ1 = Done tt σ3 ∧ forget_trace σ3 = forget_trace σ.
Proof.
  intros Ha Ha2 Hb Hw. destruct blk as [rc [wr rd] dt]. cbn in Hw. subst wr.
  eexists. split; [unfold shared_lock; unfold_ops; exec; reflexivity|].
  split; [unfold_ops; exec; reflexivity|]. split.
  - eexists. eapply clone_run; cbn; [exact Ha2|apply lookup_insert_eq|reflexivity].
  - eexists. split; [unfold_ops; exec; reflexivity|].
    unfold forget_trace, set_trace. cbn. f_equal.
    rewrite alter_insert_same. cbn. by apply insert_id.
Qed.

Lemma shared_lock_excludes_get_mut_witness :
  ∃ σ1, shared_lock 1 two_owners = Done 1%positive σ1 ∧ get_mut 2 σ1 = Stuck.
Proof.
  destruct (shared_lock_excludes_get_mut 1 2 3 1
              (ArcControlBlock.mk 2 unlocked (Some 1%positive)) two_owners)
    as (σ1 & Hrun & Hst & _); try reflexivity.
  exists σ1. split; [exact Hrun|exact Hst].
Defined.

(** ** [WeakArc]: construction, copy and destruction *)

Section weak_release.
Variables (this wb s : positive) (blk : WeakArcControlBlock.t) (c : sp_counted)
  (σ : heap).
Hypothesis Hthis : weaks σ !! this = Some (Some wb).
Hypothesis Hwb : weak_blocks σ !! wb = Some blk.

Lemma weak_release_not_last :
  WeakArcControlBlock.ref_count blk ≠ 1 →
  WeakArc.release this σ =
    Done tt (Heap (arc_blocks σ)
               (<[wb := WeakArcControlBlock.mk
                          (wrap_int (WeakArcControlBlock.ref_count blk - 1))
                          (WeakArcControlBlock.data blk)]> (weak_blocks σ))
               (counted σ) (arcs σ) (weaks σ)
               (trace σ ++ [EvFetchSub (WeakCount wb) memory_order_release])).
Proof. intros Hrc. unfold_ops. exec; reflexivity. Qed.

Lemma weak_release_last :
  WeakArcControlBlock.ref_count blk = 1 →
  WeakArcControlBlock.data blk = Some s →
  counted σ !! s = Some c →
  WeakArc.release this σ =
    Done tt (Heap (arc_blocks σ)
               (delete wb (weak_blocks σ))
               (drop_observer s c (counted σ))
               (arcs σ) (weaks σ)
               (trace σ ++ [EvFetchSub (WeakCount wb) memory_order_release;
                            EvFence memory_order_acquire;
                            EvFreeWeakBlock wb])).
Proof.
  destruct blk as [rc dt]. cbn. intros -> -> Hs.
  unfold_ops. exec. unfold drop_observer. do 2 f_equal.
  - by rewrite delete_insert_eq.
  - by destruct (use_count c), (Nat.pred (weak_count c)).
  - by rewrite <- !app_assoc.
Qed.
End weak_release.

(** X7.  [WeakArc::release] decrements its count with release ordering;
    when the decrement returned 1 it issues an acquire fence and frees the
    [WeakArcControlBlock], which gives up the observation of the payload
    record (and frees that record when the payload is gone and no other
    observer is left); otherwise the decrement is all.  In neither case is a
    lock taken, a strong control block changed, or a payload destroyed. *)
Theorem weak_release_protocol (this wb s : positive) (blk : WeakArcControlBlock.t)
    (c : sp_counted) (σ : heap) :
  weaks σ !! this = Some (Some wb) →
  weak_blocks σ !! wb = Some blk →
  WeakArcControlBlock.data blk = Some s →
  counted σ !! s = Some c →
  ∃ σ' rest,
    WeakArc.release this σ = Done tt σ' ∧
    trace σ' = trace σ ++ EvFetchSub (WeakCount wb) memory_order_release :: rest ∧
    arc_blocks σ' = arc_blocks σ ∧
    (∀ q, destroyed q σ' = destroyed q σ) ∧
    (WeakArcControlBlock.ref_count blk = 1 →
       rest = [EvFence memory_order_acquire; EvFreeWeakBlock wb] ∧
       weak_blocks σ' !! wb = None ∧
       counted σ' !! s =
         if decide (use_count c = 0%nat ∧ weak_count c ≤ 1)%nat then None
         else Some (SpCounted (use_count c) (Nat.pred (weak_count c)) (managed c))) ∧
    (WeakArcControlBlock.ref_count blk ≠ 1 →
       rest = [] ∧
       weak_refs wb σ' = Some (wrap_int (WeakArcControlBlock.ref_count blk - 1)) ∧
       counted σ' = counted σ).
Proof.
  intros Ht Hb Hd Hs.
  destruct (decide (WeakArcControlBlock.ref_count blk = 1)) as [Hrc|Hrc].
  - eexists _, _. split; [by eapply weak_release_last|].
    cbn [trace arc_blocks weak_blocks counted]. split; [reflexivity|].
    split; [done|]. split.
    { intros q. unfold destroyed. cbn [trace]. rewrite filter_app, length_app.
      count_events. }
    split; [|done]. intros _. split; [done|]. split; [apply lookup_delete_eq|].
    unfold drop_observer. destruct c as [u w mg]. cbn [use_count weak_count managed].
    destruct (decide (u = 0%nat ∧ (w ≤ 1)%nat)) as [[-> Hw]|Hn].
    + destruct w as [|[|w]]; [| |lia]; cbn; apply lookup_delete_eq.
    + destruct u as [|u].
      * destruct w as [|[|w]]; [exfalso; apply Hn; split; [done|lia]..|].
        cbn. apply lookup_insert_eq.
      * cbn. destruct (Nat.pred w); apply lookup_insert_eq.
  - eexists _, _. split; [by eapply weak_release_not_last|].
    cbn [trace arc_blocks weak_blocks counted]. split; [reflexivity|].
    split; [done|]. split.
    { intros q. unfold destroyed. cbn [trace]. rewrite filter_app, length_app.
      count_events. }
    split; [done|]. intros _. split; [done|].
    unfold weak_refs. cbn [weak_blocks]. by rewrite lookup_insert_eq.
Qed.

Lemma weak_release_protocol_witness :
  ∃ σ', WeakArc.release 5 observed_owner = Done tt σ' ∧
        weak_blocks σ' !! 1%positive = None ∧
        counted σ' !! 1%positive = Some (SpCounted 1 0 (Some 10%positive)).
Proof.
  destruct (weak_release_protocol 5 1 1 (WeakArcControlBlock.mk 1 (Some 1%positive))
              (SpCounted 1 1 (Some 10%positive)) observed_owner)
    as (σ' & rest & Hrun & _ & _ & _ & Hlast & _); try reflexivity.
  destruct (Hlast eq_refl) as (_ & Hfree & Hc).
  exists σ'. split; [exact Hrun|]. split; [exact Hfree|exact Hc].
Defined.

(** X8.  Copying a [WeakArc] and destroying the copy gives back the store
    as it was, for every count from 1 to [INT_MAX]: the copy shares the
    control block, and the only events are the relaxed increment and the
    release decrement of its count. *)
Theorem weak_copy_then_destroy_restores (this result wb : positive)
    (blk : WeakArcControlBlock.t) (σ : heap) :
  weaks σ !! this = Some (Some wb) →
  weak_blocks σ !! wb = Some blk →
  weaks σ !! result = None →
  1 ≤ WeakArcControlBlock.ref_count blk ≤ INT_MAX →
  (∃ σ1, WeakArc.copy_ctor result this σ = Done tt σ1 ∧
         weaks σ1 !! result = Some (Some wb) ∧
         weak_refs wb σ1 = Some (wrap_int (WeakArcControlBlock.ref_count blk + 1))) ∧
  ∃ σ',
    (WeakArc.copy_ctor result this;; WeakArc.dtor result) σ = Done tt σ' ∧
    forget_trace σ' = forget_trace σ ∧
    trace σ' = trace σ ++ [EvFetchAdd (WeakCount wb) memory_order_relaxed;
                           EvFetchSub (WeakCount wb) memory_order_release].
Proof.
  intros Ht Hb Hres Hrc.
  pose proof (wrap_int_succ_ne_1 _ Hrc) as Hne.
  assert (Hback : wrap_int (wrap_int (WeakArcControlBlock.ref_count blk + 1) - 1)
                  = WeakArcControlBlock.ref_count blk).
  { apply wrap_int_succ_pred. unfold INT_MIN, INT_MAX in *. lia. }
  split.
  - eexists. split; [by eapply weak_copy_ctor_run|]. cbn [weaks].
    split; [apply lookup_insert_eq|]. unfold weak_refs. cbn [weak_blocks].
    by rewrite lookup_insert_eq.
  - exists (Heap (arc_blocks σ) (weak_blocks σ) (counted σ) (arcs σ) (weaks σ)
              (trace σ ++ [EvFetchAdd (WeakCount wb) memory_order_relaxed;
                           EvFetchSub (WeakCount wb) memory_order_release])).
    split; [|split; reflexivity].
    unfold_ops. exec. do 2 f_equal.
    + rewrite insert_insert_eq. destruct blk. by apply insert_id.
    + by apply delete_insert_absent.
    + by rewrite <- app_assoc.
Qed.

Lemma weak_copy_then_destroy_restores_witness :
  ∃ σ', (WeakArc.copy_ctor 6 5;; WeakArc.dtor 6) observed_owner = Done tt σ' ∧
        forget_trace σ' = forget_trace observed_owner.
Proof.
  destruct (weak_copy_then_destroy_restores 5 6 1
              (WeakArcControlBlock.mk 1 (Some 1%positive)) observed_owner)
    as (_ & σ' & Hrun & Hsame & _);
    [reflexivity | reflexivity | reflexivity | unfold INT_MAX; cbn; lia |].
  exists σ'. split; [exact Hrun|exact Hsame].
Defined.

(** ** An owner and an observer, from construction to destruction *)

(** X9.  An [Arc] over a payload and a [WeakArc] made from it, destroyed in
    either order: every block and record that was allocated is freed again
    (the store ends as it began) and the deleter runs exactly once.  When
    the [Arc] goes first the payload is destroyed right then, while the
    [WeakArc] is still there: the observer does not keep the payload
    alive. *)
Theorem owner_and_observer_no_leak (a w p : positive) (σ : heap) :
  arcs σ !! a = None →
  weaks σ !! w = None →
  (∃ σ',
     (Arc.ctor a (Some p);; WeakArc.ctor w a;; Arc.dtor a;; WeakArc.dtor w) σ
       = Done tt σ' ∧
     forget_trace σ' = forget_trace σ ∧
     destroyed p σ' = S (destroyed p σ)) ∧
  (∃ σ',
     (Arc.ctor a (Some p);; WeakArc.ctor w a;; WeakArc.dtor w;; Arc.dtor a) σ
       = Done tt σ' ∧
     forget_trace σ' = forget_trace σ ∧
     destroyed p σ' = S (destroyed p σ)) ∧
  (∃ σ',
     (Arc.ctor a (Some p);; WeakArc.ctor w a;; Arc.dtor a) σ = Done tt σ' ∧
     arcs σ' = arcs σ ∧
     arc_blocks σ' = arc_blocks σ ∧
     weaks σ' !! w = Some (Some (fresh (dom (weak_blocks σ)))) ∧
     destroyed p σ' = S (destroyed p σ)).
Proof.
  intros Ha Hw.
  set (cb := fresh (dom (arc_blocks σ))).
  set (s := fresh (dom (counted σ))).
  set (wb := fresh (dom (weak_blocks σ))).
  split; [|split].
  - exists (Heap (arc_blocks σ) (weak_blocks σ) (counted σ) (arcs σ) (weaks σ)
              (trace σ ++ [EvFetchSub (StrongCount cb) memory_order_release;
                           EvFence memory_order_acquire; EvLock cb;
                           EvLoad (StrongCount cb) memory_order_relaxed;
                           EvDeletePayload p; EvFreeBlock cb; EvUnlock cb;
                           EvFetchSub (WeakCount wb) memory_order_release;
                           EvFence memory_order_acquire; EvFreeWeakBlock wb])).
    split; [|split; [reflexivity|]].
    + unfold_ops. exec. fold cb s wb. tidy_maps. exec.
      do 2 f_equal; subst cb s wb; cbn [Nat.pred]; tidy_maps;
        rewrite <- ?app_assoc; done.
    + unfold destroyed. cbn [trace]. rewrite filter_app, length_app. count_events.
  - exists (Heap (arc_blocks σ) (weak_blocks σ) (counted σ) (arcs σ) (weaks σ)
              (trace σ ++ [EvFetchSub (WeakCount wb) memory_order_release;
                           EvFence memory_order_acquire; EvFreeWeakBlock wb;
                           EvFetchSub (StrongCount cb) memory_order_release;
                           EvFence memory_order_acquire; EvLock cb;
                           EvLoad (StrongCount cb) memory_order_relaxed;
                           EvDeletePayload p; EvFreeBlock cb; EvUnlock cb])).
    split; [|split; [reflexivity|]].
    + unfold_ops. exec. fold cb s wb. tidy_maps. exec.
      do 2 f_equal; subst cb s wb; cbn [Nat.pred]; tidy_maps;
        rewrite <- ?app_assoc; done.
    + unfold destroyed. cbn [trace]. rewrite filter_app, length_app. count_events.
  - exists (Heap (arc_blocks σ)
              (<[wb := WeakArcControlBlock.mk 1 (Some s)]> (weak_blocks σ))
              (<[s := SpCounted 0 1 (Some p)]> (counted σ))
              (arcs σ) (<[w := Some wb]> (weaks σ))
              (trace σ ++ [EvFetchSub (StrongCount cb) memory_order_release;
                           EvFence memory_order_acquire; EvLock cb;
                           EvLoad (StrongCount cb) memory_order_relaxed;
                           EvDeletePayload p; EvFreeBlock cb; EvUnlock cb])).
    split; [|split; [done|split; [done|split; [apply lookup_insert_eq|]]]].
    + unfold_ops. exec. fold cb s wb. tidy_maps. exec.
      do 2 f_equal; subst cb s wb; cbn [Nat.pred]; tidy_maps;
        rewrite <- ?app_assoc; done.
    + unfold destroyed. cbn [trace]. rewrite filter_app, length_app. count_events.
Qed.

Lemma owner_and_observer_no_leak_witness :
  ∃ σ', (Arc.ctor 1 (Some 10%positive);; WeakArc.ctor 5 1;; Arc.dtor 1;; WeakArc.dtor 5)
          empty_heap = Done tt σ' ∧
        forget_trace σ' = forget_trace empty_heap ∧ destroyed 10 σ' = 1%nat.
Proof.
  destruct (owner_and_observer_no_leak 1 5 10 empty_heap)
    as ((σ' & Hrun & Hsame & Hd) & _); [reflexivity | reflexivity |].
  exists σ'. split; [exact Hrun|]. split; [exact Hsame|exact Hd].
Defined.

(** ** The end of [main] *)

(** X10.  The last part of [main.cpp], in a store where [arc] and [arc2]
    are the two owners of a payload: [upgrade] hands out a second,
    independent owner of the same raw pointer, and when the four locals go
    out of scope the deleter runs on that payload twice: first for
    [upgradedArc], while [arc] and [arc2] still point at it, and again for
    [arc]. *)
Theorem main_tail_deletes_twice (arc arc2 weakArc upgradedArc cb s p : positive)
    (w0 : nat) (σ : heap) :
  arc ≠ arc2 →
  arcs σ !! arc = Some (Some cb) →
  arcs σ !! arc2 = Some (Some cb) →
  arcs σ !! upgradedArc = None →
  weaks σ !! weakArc = None →
  arc_blocks σ !! cb = Some (ArcControlBlock.mk 2 unlocked (Some s)) →
  counted σ !! s = Some (SpCounted 1 w0 (Some p)) →
  ∃ σ',
    main_tail arc arc2 weakArc upgradedArc σ = Done tt σ' ∧
    destroyed p σ' = S (S (destroyed p σ)) ∧
    arc_blocks σ' = delete cb (arc_blocks σ) ∧
    weak_blocks σ' = weak_blocks σ ∧
    trace σ' = trace σ ++
      [EvLockShared (fresh (dom (arc_blocks σ)));
       EvUnlockShared (fresh (dom (arc_blocks σ)));
       EvFetchSub (StrongCount (fresh (dom (arc_blocks σ)))) memory_order_release;
       EvFence memory_order_acquire;
       EvLock (fresh (dom (arc_blocks σ)));
       EvLoad (StrongCount (fresh (dom (arc_blocks σ)))) memory_order_relaxed;
       EvDeletePayload p;
       EvFreeBlock (fresh (dom (arc_blocks σ)));
       EvUnlock (fresh (dom (arc_blocks σ)));
       EvFetchSub (WeakCount (fresh (dom (weak_blocks σ)))) memory_order_release;
       EvFence memory_order_acquire;
       EvFreeWeakBlock (fresh (dom (weak_blocks σ)));
       EvFetchSub (StrongCount cb) memory_order_release;
       EvFetchSub (StrongCount cb) memory_order_release;
       EvFence memory_order_acquire;
       EvLock cb;
       EvLoad (StrongCount cb) memory_order_relaxed;
       EvDeletePayload p;
       EvFreeBlock cb;
       EvUnlock cb].
Proof.
  intros Hne Ha Ha2 Hu Hw Hb Hs.
  pose proof (fresh_ne _ _ _ Hb) as Hcb.
  pose proof (fresh_ne _ _ _ Hs) as Hsn.
  assert (Hua : upgradedArc ≠ arc) by (intros ->; congruence).
  assert (Hua2 : upgradedArc ≠ arc2) by (intros ->; congruence).
  assert (H21 : wrap_int (2 - 1) = 1) by reflexivity.
  exists (Heap (delete cb (arc_blocks σ)) (weak_blocks σ)
            (match w0 with
             | O => delete s
             | S _ => <[s := SpCounted 0 w0 (Some p)]>
             end (<[s := SpCounted 1 w0 (Some p)]> (counted σ)))
            (delete arc (delete arc2 (delete upgradedArc (arcs σ))))
            (delete weakArc (weaks σ))
            (trace σ ++
      [EvLockShared (fresh (dom (arc_blocks σ)));
       EvUnlockShared (fresh (dom (arc_blocks σ)));
       EvFetchSub (StrongCount (fresh (dom (arc_blocks σ)))) memory_order_release;
       EvFence memory_order_acquire;
       EvLock (fresh (dom (arc_blocks σ)));
       EvLoad (StrongCount (fresh (dom (arc_blocks σ)))) memory_order_relaxed;
       EvDeletePayload p;
       EvFreeBlock (fresh (dom (arc_blocks σ)));
       EvUnlock (fresh (dom (arc_blocks σ)));
       EvFetchSub (WeakCount (fresh (dom (weak_blocks σ)))) memory_order_release;
       EvFence memory_order_acquire;
       EvFreeWeakBlock (fresh (dom (weak_blocks σ)));
       EvFetchSub (StrongCount cb) memory_order_release;
       EvFetchSub (StrongCount cb) memory_order_release;
       EvFence memory_order_acquire;
       EvLock cb;
       EvLoad (StrongCount cb) memory_order_relaxed;
       EvDeletePayload p;
       EvFreeBlock cb;
       EvUnlock cb])).
  split.
  { unfold main_tail, shared_lock. unfold_ops.
    repeat first
      [ progress exec
      | rewrite lookup_delete_ne by done
      | progress (tidy_maps; cbn [Nat.pred];
                  rewrite ?(fresh_dom_insert _ _ _ _ Hs),
                    ?(delete_between_inserts s) by (done || apply fresh_lookup)) ].
    do 2 f_equal. by rewrite <- !app_assoc. }
  cbn [arc_blocks weak_blocks trace]. split; [|done].
  unfold destroyed. cbn [trace]. rewrite filter_app, length_app. count_long.
Qed.

Lemma main_tail_deletes_twice_witness :
  ∃ σ', main_tail 1 2 5 6 two_owners = Done tt σ' ∧ destroyed 10 σ' = 2%nat.
Proof.
  destruct (main_tail_deletes_twice 1 2 5 6 1 1 10 0 two_owners)
    as (σ' & Hrun & Hd & _);
    [discriminate | reflexivity | reflexivity | reflexivity | reflexivity
    | reflexivity | reflexivity |].
  exists σ'. split; [exact Hrun|exact Hd].
Defined.

(** ** [upgrade] while the observed record is alive *)

(** X11.  [upgrade] on a live record takes no lock and touches no counter
    of the header: no event is recorded, the [WeakArc], its control block
    and the observed record are afterwards as before, and [get()] on the
    result is the raw pointer the record manages.  When that pointer is
    null (a [WeakArc] made from [Arc(nullptr)]) the result is a null [Arc]
    although the observed one is alive. *)
Theorem upgrade_alive_frame (this result wb s : positive)
    (wblk : WeakArcControlBlock.t) (c : sp_counted) (σ : heap) :
  weaks σ !! this = Some (Some wb) →
  weak_blocks σ !! wb = Some wblk →
  WeakArcControlBlock.data wblk = Some s →
  counted σ !! s = Some c →
  (0 < use_count c)%nat →
  ∃ σ',
    WeakArc.upgrade this result σ = Done tt σ' ∧
    value (Arc.get result σ') = Some (managed c) ∧
    trace σ' = trace σ ∧
    weaks σ' = weaks σ ∧
    weak_blocks σ' = weak_blocks σ ∧
    counted σ' !! s = Some c ∧
    (∀ s', s' ≠ fresh (dom (counted σ)) → counted σ' !! s' = counted σ !! s').
Proof.
  intros Ht Hb Hd Hs Hu.
  pose proof (fresh_ne _ _ _ Hs) as Hsn.
  assert (Hrun : WeakArc.upgrade this result σ =
    Done tt (Heap (<[fresh (dom (arc_blocks σ)) :=
                      ArcControlBlock.mk 1 unlocked (Some (fresh (dom (counted σ))))]>
                     (arc_blocks σ))
               (weak_blocks σ)
               (<[fresh (dom (counted σ)) := SpCounted 1 0 (managed c)]> (counted σ))
               (<[result := Some (fresh (dom (arc_blocks σ)))]> (arcs σ))
               (weaks σ) (trace σ))).
  { destruct (managed c) as [p|] eqn:Em.
    - eapply upgrade_alive; eauto.
    - eapply upgrade_alive_null; eauto. }
  eexists. split; [exact Hrun|]. split.
  { rewrite (get_run result (fresh (dom (arc_blocks σ))) (fresh (dom (counted σ)))
               (ArcControlBlock.mk 1 unlocked (Some (fresh (dom (counted σ)))))
               (SpCounted 1 0 (managed c)));
      [done | cbn; apply lookup_insert_eq ..| done | cbn; apply lookup_insert_eq]. }
  cbn [trace weaks weak_blocks counted].
  split; [done|]. split; [done|]. split; [done|].
  split; [by rewrite lookup_insert_ne|].
  intros s' Hs'. by rewrite lookup_insert_ne.
Qed.

Lemma upgrade_alive_frame_witness :
  ∃ σ', WeakArc.upgrade 5 2 observed_owner = Done tt σ' ∧
        value (Arc.get 2 σ') = Some (Some 10%positive) ∧ trace σ' = [].
Proof.
  destruct (upgrade_alive_frame 5 2 1 1 (WeakArcControlBlock.mk 1 (Some 1%positive))
              (SpCounted 1 1 (Some 10%positive)) observed_owner)
    as (σ' & Hrun & Hget & Htr & _); try reflexivity; [cbn; lia|].
  exists σ'. split; [exact Hrun|]. split; [exact Hget|exact Htr].
Defined.

(** ** A family of owners from its first [Arc] on *)

(** X12.  [Arc a(p)] in a store without [Arc]s, followed by any well-scoped
    sequence of copies and destructions (fewer than [INT_MAX] of them), runs
    to its end.  While an [Arc] is left, the count of the block is the
    number of [Arc]s and the deleter has not run; when none is left, the
    deleter has run exactly once and the block is freed. *)
Theorem owners_lifecycle (this p : positive) (ops : list owner_op) (σ : heap) :
  arcs σ = ∅ →
  well_scoped {[this]} ops →
  1 + Z.of_nat (length ops) ≤ INT_MAX →
  ∃ σ',
    (Arc.ctor this (Some p);; run_owner_ops ops) σ = Done tt σ' ∧
    if decide (live_after {[this]} ops = ∅)
    then destroyed p σ' = S (destroyed p σ) ∧
         arc_blocks σ' !! fresh (dom (arc_blocks σ)) = None ∧
         arcs σ' = ∅
    else strong_count (fresh (dom (arc_blocks σ))) σ'
           = Some (Z.of_nat (size (live_after {[this]} ops))) ∧
         1 ≤ Z.of_nat (size (live_after {[this]} ops)) ∧
         arcs σ' = gset_to_gmap (Some (fresh (dom (arc_blocks σ))))
                     (live_after {[this]} ops) ∧
         destroyed p σ' = destroyed p σ.
Proof.
  intros Ha Hsc Hlen.
  destruct (ctor_family this p σ Ha) as (σ1 & Hrun1 & Hfam & Hd1).
  assert (Hne : ({[this]} : gset positive) ≠ ∅).
  { intros E. assert (Hin : this ∈ (∅ : gset positive))
      by (rewrite <- E; by apply elem_of_singleton).
    exact (not_elem_of_empty _ Hin). }
  assert (Hbound : Z.of_nat (size ({[this]} : gset positive)) + Z.of_nat (length ops)
                   ≤ INT_MAX) by (rewrite size_singleton; lia).
  destruct (family_lifecycle (fresh (dom (arc_blocks σ))) (fresh (dom (counted σ)))
              p 0%nat ops {[this]} σ1 Hfam Hne Hsc Hbound) as (σ' & Hrun & Hend).
  exists σ'. split.
  { unfold mbind, M_bind, bind. by rewrite Hrun1. }
  destruct (decide (live_after {[this]} ops = ∅)) as [E|E].
  - destruct Hend as (Hd & Hb & Ha'). by rewrite <- Hd1.
  - destruct Hend as ((_ & _ & Ha') & Hc & Hpos & Hd). by rewrite <- Hd1.
Qed.

Lemma owners_lifecycle_witness :
  ∃ σ', (Arc.ctor 1 (Some 10%positive);;
         run_owner_ops [Copy 2 1; Destroy 1; Copy 3 2; Destroy 3; Destroy 2]) empty_heap
          = Done tt σ' ∧
        destroyed 10 σ' = 1%nat ∧ arcs σ' = ∅.
Proof.
  destruct (owners_lifecycle 1 10 [Copy 2 1; Destroy 1; Copy 3 2; Destroy 3; Destroy 2]
              empty_heap) as (σ' & Hrun & Hend).
  - reflexivity.
  - cbn. repeat split; by (apply (bool_decide_unpack _); vm_compute).
  - unfold INT_MAX. cbn. lia.
  - exists σ'. split; [exact Hrun|].
    revert Hrun. vm_compute. intros [= <-]. split; reflexivity.
Defined.

(** ** Assignment between two [WeakArc]s on one control block *)

(** X13.  [this = other;] between two [WeakArc]s that already share their
    control block raises the count of that block by one although no
    [WeakArc] has been added.  With two such objects and count 2, after the
    assignment and the destruction of both the block is still allocated,
    with count 1 and no [WeakArc] pointing at it. *)
Theorem weak_assign_same_block_overcounts (this other wb : positive)
    (blk : WeakArcControlBlock.t) (σ : heap) :
  this ≠ other →
  weaks σ !! this = Some (Some wb) →
  weaks σ !! other = Some (Some wb) →
  weak_blocks σ !! wb = Some blk →
  1 ≤ WeakArcControlBlock.ref_count blk < INT_MAX - 1 →
  (∃ σ',
     WeakArc.assign_stmt this other σ = Done tt σ' ∧
     weaks σ' = weaks σ ∧
     weak_refs wb σ' = Some (WeakArcControlBlock.ref_count blk + 1)) ∧
  (WeakArcControlBlock.ref_count blk = 2 →
   ∃ σ',
     (WeakArc.assign_stmt this other;; WeakArc.dtor this;; WeakArc.dtor other) σ
       = Done tt σ' ∧
     weaks σ' !! this = None ∧
     weaks σ' !! other = None ∧
     weak_blocks σ' !! wb
       = Some (WeakArcControlBlock.mk 1 (WeakArcControlBlock.data blk))).
Proof.
  intros Hne Ht Ho Hb Hrc. destruct blk as [rc dt]. cbn in *.
  assert (H1 : wrap_int (rc + 1) = rc + 1)
    by (apply wrap_int_id; unfold INT_MIN, INT_MAX in *; lia).
  assert (H2 : wrap_int (rc + 1 + 1) = rc + 1 + 1)
    by (apply wrap_int_id; unfold INT_MIN, INT_MAX in *; lia).
  assert (H3 : wrap_int (rc + 1 + 1 - 1) = rc + 1)
    by (rewrite wrap_int_id; unfold INT_MIN, INT_MAX in *; lia).
  assert (Hf : weaks σ !! fresh (dom (weaks σ)) = None) by apply fresh_lookup.
  assert (Hft : fresh (dom (weaks σ)) ≠ this) by (by eapply fresh_ne).
  assert (Hrun : WeakArc.assign_stmt this other σ =
    Done tt (Heap (arc_blocks σ)
               (<[wb := WeakArcControlBlock.mk (rc + 1) dt]> (weak_blocks σ))
               (counted σ) (arcs σ) (weaks σ)
               (trace σ ++ [EvFetchAdd (WeakCount wb) memory_order_relaxed;
                            EvFetchAdd (WeakCount wb) memory_order_relaxed;
                            EvFetchSub (WeakCount wb) memory_order_release]))).
  { unfold_ops. exec. do 2 f_equal.
    - by rewrite !insert_insert_eq.
    - rewrite delete_insert_absent.
      + by apply insert_id.
      + by rewrite lookup_insert_ne.
    - by rewrite <- !app_assoc. }
  split.
  - eexists. split; [exact Hrun|]. cbn [weaks weak_blocks]. split; [done|].
    unfold weak_refs. cbn [weak_blocks]. by rewrite lookup_insert_eq.
  - intros ->. 
    assert (H32 : wrap_int (2 + 1 - 1) = 2) by reflexivity.
    assert (H21 : wrap_int (2 - 1) = 1) by reflexivity.
    eexists. split.
    { unfold mbind at 1, M_bind at 1, bind at 1. rewrite Hrun.
      unfold_ops. exec. rewrite lookup_delete_ne by done. exec.
      rewrite !insert_insert_eq. reflexivity. }
    cbn [weaks weak_blocks].
    split; [rewrite lookup_delete_ne by done; apply lookup_delete_eq|].
    split; [apply lookup_delete_eq|]. apply lookup_insert_eq.
Qed.

Lemma weak_assign_same_block_overcounts_witness :
  ∃ σ', (WeakArc.assign_stmt 5 6;; WeakArc.dtor 5;; WeakArc.dtor 6) shared_weaks
          = Done tt σ' ∧
        weak_refs 1 σ' = Some 1 ∧ weaks σ' = ∅.
Proof.
  destruct (weak_assign_same_block_overcounts 5 6 1
              (WeakArcControlBlock.mk 2 (Some 1%positive)) shared_weaks)
    as (_ & Hleak);
    [discriminate | reflexivity | reflexivity | reflexivity | unfold INT_MAX; cbn; lia |].
  destruct (Hleak eq_refl) as (σ' & Hrun & _).
  exists σ'. split; [exact Hrun|].
  revert Hrun. vm_compute. intros [= <-]. split; reflexivity.
Defined.

(** ** [get()] and [mutex()] *)

(** X14.  [get()] and [mutex()] only read: whenever they return, the store,
    its trace included, is the one they started from, so neither takes a
    lock or touches a counter; and on an [Arc] whose block is live they do
    return, also while the mutex is held by a writer. *)
Theorem get_and_mutex_only_read (this : positive) (σ : heap) :
  (∀ p σ', Arc.get this σ = Done p σ' → σ' = σ) ∧
  (∀ m σ', Arc.mutex this σ = Done m σ' → σ' = σ) ∧
  (∀ cb blk,
     arcs σ !! this = Some (Some cb) →
     arc_blocks σ !! cb = Some blk →
     Arc.mutex this σ = Done cb σ ∧
     (ArcControlBlock.data blk = None → Arc.get this σ = Done None σ) ∧
     (∀ s c, ArcControlBlock.data blk = Some s → counted σ !! s = Some c →
             Arc.get this σ = Done (managed c) σ)).
Proof.
  split; [|split].
  - intros p σ'. unfold_ops.
    destruct (arcs σ !! this) as [[cb|]|]; try discriminate.
    destruct (arc_blocks σ !! cb) as [blk|]; try discriminate. cbn.
    destruct (ArcControlBlock.data blk) as [s|]; cbn.
    + destruct (counted σ !! s); [|discriminate]. by intros [= _ <-].
    + by intros [= _ <-].
  - intros m σ'. unfold_ops.
    destruct (arcs σ !! this) as [[cb|]|]; try discriminate.
    destruct (arc_blocks σ !! cb) as [blk|]; try discriminate. cbn.
    by intros [= _ <-].
  - intros cb blk Ha Hb. split; [unfold_ops; exec; reflexivity|]. split.
    + intros Hd. unfold_ops. exec. rewrite Hd. reflexivity.
    + intros s c Hd Hs. by eapply get_run.
Qed.


Lemma get_and_mutex_only_read_witness :
  Arc.mutex 1 locked_owners = Done 1%positive locked_owners ∧
  Arc.get 1 locked_owners = Done (Some 10%positive) locked_owners.
Proof.
  destruct (get_and_mutex_only_read 1 locked_owners) as (_ & _ & H).
  destruct (H 1%positive (ArcControlBlock.mk 2 (SharedMutex true 0) (Some 1%positive))
              eq_refl eq_refl) as (Hm & _ & Hg).
  split; [exact Hm|].
  exact (Hg 1%positive (SpCounted 1 0 (Some 10%positive)) eq_refl eq_refl).
Defined.

(** ** Operations while the mutex is held *)

(** X15.  While the mutex of a control block is held by a writer, [clone]
    and [get_mut] on an [Arc] of that block do not get through, and neither
    does the destruction of its last owner; the copy constructor, which asks
    for no lock, and the destruction of an owner that is not the last go
    through all the same. *)
Theorem writer_blocks_locking_members (this result cb : positive)
    (blk : ArcControlBlock.t) (σ : heap) :
  arcs σ !! this = Some (Some cb) →
  arc_blocks σ !! cb = Some blk →
  writer (ArcControlBlock.mutex blk) = true →
  Arc.clone this result σ = Stuck ∧
  get_mut this σ = Stuck ∧
  (∃ σ', Arc.copy_ctor result this σ = Done tt σ') ∧
  (ArcControlBlock.ref_count blk = 1 → Arc.dtor this σ = Stuck) ∧
  (ArcControlBlock.ref_count blk ≠ 1 → ∃ σ', Arc.dtor this σ = Done tt σ').
Proof.
  intros Ha Hb Hw. destruct blk as [rc [wr rd] dt]. cbn in Hw. subst wr.
  split; [unfold_ops; exec; reflexivity|].
  split; [unfold_ops; exec; reflexivity|].
  split; [eexists; by eapply copy_ctor_run|].
  split.
  - cbn. intros ->. unfold_ops. exec; reflexivity.
  - cbn. intros Hrc. eexists. by eapply dtor_not_last.
Qed.

Lemma writer_blocks_locking_members_witness :
  Arc.clone 1 3 locked_owners = Stuck ∧ get_mut 2 locked_owners = Stuck.
Proof.
  destruct (writer_blocks_locking_members 1 3 1
              (ArcControlBlock.mk 2 (SharedMutex true 0) (Some 1%positive))
              locked_owners) as (Hc & _); try reflexivity.
  destruct (writer_blocks_locking_members 2 3 1
              (ArcControlBlock.mk 2 (SharedMutex true 0) (Some 1%positive))
              locked_owners) as (_ & Hg & _); try reflexivity.
  split; [exact Hc|exact Hg].
Defined.

Example locked_owners_reached :
  (m ← Arc.mutex 1; lock m) two_owners = Done tt
    (set_trace (λ _, [EvLock 1]) locked_owners).
Proof. vm_compute. reflexivity. Qed.
